(** * Universal Searcher: the inverted index of [main.cpp]

    A shallow embedding of the hashed inverted index (hash table of word
    nodes, each with a linked list of per-document postings), of the file
    loader that feeds it and of the query routine, followed by the
    properties of the index that the specification states.

    Conventions of the embedding.
    - A C string is the Rocq [string] of its bytes before the terminator.
    - [unsigned int] is 32 bits wide and [int] is a 32-bit two's complement
      integer; both are carried by [Z], the wrap-around of unsigned
      arithmetic is written out with [mod].  Plain [char] is signed, as on
      the x86 targets the program is built for.
    - A singly linked list ([WordNode.next], [DocNode.next]) is the Rocq list
      of its nodes from the head; a pointer into such a list is the position
      of the node it points to.  Every node is owned by exactly one list, so
      no aliasing has to be tracked.
    - Behaviour that C leaves undefined (a write past the end of a [char]
      array, overflow of a signed counter) is an explicit [Undefined]
      outcome.
    - [malloc] may fail: the machine state carries the results of the
      upcoming allocation requests. *)

From Stdlib Require Import ZArith Ascii String.
From stdpp Require Import base list strings.

Local Open Scope Z_scope.

(** ** Constants of the program *)

Definition TABLE_SIZE : Z := 1007.
Definition MAX_WORD_LEN : nat := 50.
Definition MAX_LINE_LEN : nat := 1024.

(** [sizeof(doc_name)] in [struct DocNode]. *)
Definition DOC_NAME_LEN : nat := 50.

Definition UINT_MODULUS : Z := 2 ^ 32.
Definition INT_MAX : Z := 2147483647.

(** ** Outcomes *)

Inductive undefined_behaviour : Type :=
| BufferOverflow      (* a store past the end of a char array *)
| SignedOverflow.     (* [frequency++] at [INT_MAX] *)

Inductive outcome (A : Type) : Type :=
| Done (a : A)
| Undefined (why : undefined_behaviour).

Arguments Done {A} a.
Arguments Undefined {A} why.

Definition obind {A B : Type} (m : outcome A) (k : A → outcome B) : outcome B :=
  match m with
  | Done a => k a
  | Undefined why => Undefined why
  end.

Notation "x ←! m ; k" := (obind m (fun x => k))
  (at level 100, m at next level, right associativity, only parsing).

Definition is_done {A : Type} (m : outcome A) : bool :=
  match m with Done _ => true | Undefined _ => false end.

(** ** Data structures *)

Record DocNode : Type := mkDocNode {
  doc_id : Z;
  doc_name : string;
  frequency : Z
}.

Record WordNode : Type := mkWordNode {
  word : string;
  doc_list : list DocNode
}.

(** The global array [HashTable] with the chain hanging off every slot, and
    the allocator: [heap] lists whether each of the next calls of [malloc]
    succeeds; once the list is used up every call succeeds. *)
Record state : Type := mkState {
  HashTable : list (list WordNode);
  heap : list bool
}.

(** The loop of [main] that clears the table. *)
Definition empty_table : list (list WordNode) :=
  replicate (Z.to_nat TABLE_SIZE) [].

Definition init (h : list bool) : state :=
  {| HashTable := empty_table; heap := h |}.

(** ** Characters *)

(** The value of a plain (signed) [char] after promotion to [int]. *)
Definition char_to_int (c : ascii) : Z :=
  let n := Z.of_nat (nat_of_ascii c) in
  if n <? 128 then n else n - 256.

(** [tolower] in the C locale: only 'A'..'Z' move, every other byte is
    left as it is. *)
Definition tolower (c : ascii) : ascii :=
  let n := nat_of_ascii c in
  if ((65 <=? n) && (n <=? 90))%nat then ascii_of_nat (n + 32) else c.

(** ** 1. BKDR string hash *)

Definition seed : Z := 131.

(** The [while] loop over the characters of [str]; [hash] is the running
    [unsigned int]. *)
Fixpoint hash_loop (hash : Z) (str : string) : Z :=
  match str with
  | EmptyString => hash
  | String c str' =>
      hash_loop ((hash * seed + char_to_int c) mod UINT_MODULUS) str'
  end.

Definition HashFunction (str : string) : Z :=
  hash_loop 0 str mod TABLE_SIZE.

(** ** 2. Lower-casing into a fixed buffer *)

(** [ToLowerCase_from size i src]: the loop of [ToLowerCase] from index [i],
    [src] being what is left of the source, [size] the size of the array
    behind [dest].  The result is the string left in [dest + i]. *)
Fixpoint ToLowerCase_from (size i : nat) (src : string) : outcome string :=
  match src with
  | EmptyString =>
      if (i <? size)%nat then Done EmptyString        (* dest[i] = '\0' *)
      else Undefined BufferOverflow
  | String c src' =>
      if (i <? size)%nat then                          (* dest[i] = tolower(src[i]) *)
        rest ←! ToLowerCase_from size (S i) src';
        Done (String (tolower c) rest)
      else Undefined BufferOverflow
  end.

Definition ToLowerCase (size : nat) (src : string) : outcome string :=
  ToLowerCase_from size 0 src.

(** [strcpy] into an array of [size] bytes. *)
Definition strcpy (size : nat) (src : string) : outcome string :=
  if (String.length src <? size)%nat then Done src
  else Undefined BufferOverflow.

(** ** 3. Inserting one word occurrence *)

(** [malloc]: takes the next allocation result off the heap's list. *)
Definition malloc (h : list bool) : bool * list bool :=
  match h with
  | [] => (true, [])
  | ok :: h' => (ok, h')
  end.

(** A scan of a linked list for the first node that passes [test].  The
    pointer the scan stops at is given as the node it points to, between the
    nodes before it and the nodes behind it; [None] when the scan runs to
    [NULL]. *)
Fixpoint find_first {A : Type} (test : A → bool) (p : list A)
    : option (list A * A * list A) :=
  match p with
  | [] => None
  | n :: p' =>
      if test n then Some ([], n, p')
      else
        match find_first test p' with
        | Some (before, x, behind) => Some (n :: before, x, behind)
        | None => None
        end
  end.

(** Step 1, the scan of a chain: [strcmp(p->word, word) == 0]. *)
Definition find_word (w : string) (p : list WordNode) :=
  find_first (λ n, String.eqb (word n) w) p.

(** Step 3, the scan of a posting list: [d->doc_id == doc_id]. *)
Definition find_doc (id : Z) (d : list DocNode) :=
  find_first (λ n, doc_id n =? id) d.

(** [d->frequency++] on an [int]. *)
Definition increment (d : DocNode) : outcome DocNode :=
  if frequency d <? INT_MAX then
    Done {| doc_id := doc_id d; doc_name := doc_name d; frequency := frequency d + 1 |}
  else Undefined SignedOverflow.

(** Steps 3 and 4 on the posting list of the node [p] points to: the new
    list and what is left of the heap. *)
Definition record_occurrence (id : Z) (name : string) (docs : list DocNode)
    (h : list bool) : outcome (list DocNode * list bool) :=
  match find_doc id docs with
  | Some (before, d, behind) =>
      d' ←! increment d; Done (before ++ d' :: behind, h)
  | None =>
      match malloc h with
      | (false, h') => Done (docs, h')                       (* new_doc == NULL *)
      | (true, h') =>
          name' ←! strcpy DOC_NAME_LEN name;
          Done ({| doc_id := id; doc_name := name'; frequency := 1 |} :: docs, h')
      end
  end.

(** The slot [HashTable[idx]]. *)
Definition bucket (table : list (list WordNode)) (idx : nat) : list WordNode :=
  default [] (table !! idx).

(** Steps 1 and 2: where [p] points once the node for [w] is in the chain,
    and the heap left; [None] is the early return on a failed allocation. *)
Definition find_or_create (w : string) (chain : list WordNode) (h : list bool)
    : outcome (option (list WordNode * WordNode * list WordNode) * list bool) :=
  match find_word w chain with
  | Some at_p => Done (Some at_p, h)
  | None =>
      match malloc h with
      | (false, h') => Done (None, h')                       (* p == NULL *)
      | (true, h') =>
          w' ←! strcpy MAX_WORD_LEN w;
          Done (Some ([], {| word := w'; doc_list := [] |}, chain), h')
      end
  end.

Definition InsertIndex (raw_word : string) (id : Z) (name : string)
    (st : state) : outcome state :=
  w ←! ToLowerCase MAX_WORD_LEN raw_word;
  if (String.length w =? 0)%nat then Done st
  else
    let idx := Z.to_nat (HashFunction w) in
    r ←! find_or_create w (bucket (HashTable st) idx) (heap st);
    match r with
    | (None, h) => Done {| HashTable := HashTable st; heap := h |}
    | (Some (before, p, behind), h) =>
        r' ←! record_occurrence id name (doc_list p) h;
        let p' := {| word := word p; doc_list := r'.1 |} in
        Done {| HashTable := <[idx := before ++ p' :: behind]> (HashTable st);
                heap := r'.2 |}
    end.

(** ** 4. Loading a file *)

Definition NUL : ascii := "000"%char.
Definition LF : ascii := "010"%char.

(** The separators handed to [strtok]: blank , . ? ! double quote, line feed,
    tab, carriage return and the brackets. *)
Definition delimiters : string :=
  " ,.?!" +:+
  String "034"%char (String "010"%char (String "009"%char (String "013"%char
    "[](){}"))).

(** [strchr(set, c) != NULL] for a character other than the terminator. *)
Fixpoint char_in (c : ascii) (set : string) : bool :=
  match set with
  | EmptyString => false
  | String c' set' => if Ascii.eqb c c' then true else char_in c set'
  end.

(** The part of [s] before the first character of [reject] ([strcspn]). *)
Fixpoint before (reject s : string) : string :=
  match s with
  | EmptyString => EmptyString
  | String c s' => if char_in c reject then EmptyString else String c (before reject s')
  end.

(** What [s] is from its first character outside [accept] on ([strspn]). *)
Fixpoint skip (accept s : string) : string :=
  match s with
  | EmptyString => EmptyString
  | String c s' => if char_in c accept then skip accept s' else s
  end.

(** The end of a token: the token, and the text after the separator that
    was overwritten by the terminator. *)
Fixpoint scan_token (delims s : string) : string * string :=
  match s with
  | EmptyString => (EmptyString, EmptyString)
  | String c s' =>
      if char_in c delims then (EmptyString, s')
      else let r := scan_token delims s' in (String c r.1, r.2)
  end.

(** One call of [strtok] with the text still to be scanned: the token and
    the saved position, [None] for [NULL]. *)
Definition strtok (delims save : string) : option (string * string) :=
  match skip delims save with
  | EmptyString => None
  | s => Some (scan_token delims s)
  end.

(** The inner [while (token != NULL)] loop.  Every call of [strtok] that
    returns a token shortens the text, so [String.length save] rounds are
    enough ([token_loop_fuel]). *)
Fixpoint token_loop (fuel : nat) (save : string) (id : Z) (name : string)
    (st : state) : outcome state :=
  match fuel with
  | O => Done st
  | S fuel' =>
      match strtok delimiters save with
      | None => Done st
      | Some (token, save') =>
          st' ←! InsertIndex token id name st;
          token_loop fuel' save' id name st'
      end
  end.

(** What [fgets] stores for [room] characters at most: it stops behind a
    line feed; the second component is what is left of the stream. *)
Fixpoint fgets_read (room : nat) (stream : string) : string * string :=
  match room, stream with
  | O, _ => (EmptyString, stream)
  | S _, EmptyString => (EmptyString, EmptyString)
  | S room', String c stream' =>
      if Ascii.eqb c LF then (String c EmptyString, stream')
      else let r := fgets_read room' stream' in (String c r.1, r.2)
  end.

(** [fgets(buf, n, fp)]: [None] for [NULL] at the end of the file. *)
Definition fgets (n : nat) (stream : string) : option (string * string) :=
  match stream with
  | EmptyString => None
  | _ => Some (fgets_read (n - 1) stream)
  end.

(** The C string in [line_buffer] once the line feed is cut off: the bytes
    before the first terminator or line feed. *)
Definition cut_line (buffer : string) : string :=
  before (String LF EmptyString) (before (String NUL EmptyString) buffer).

(** The outer [while (fgets(...) != NULL)] loop. *)
Fixpoint line_loop (fuel : nat) (stream : string) (id : Z) (name : string)
    (st : state) : outcome state :=
  match fuel with
  | O => Done st
  | S fuel' =>
      match fgets MAX_LINE_LEN stream with
      | None => Done st
      | Some (line_buffer, stream') =>
          let line := cut_line line_buffer in
          st' ←! token_loop (String.length line) line id name st;
          line_loop fuel' stream' id name st'
      end
  end.

(** What the program prints. *)
Inductive event : Type :=
| WarnCannotOpen (filename : string)
| Indexing (filename : string)
| ResultHeader (query : string)
| ResultRow (name : string) (count : Z)
| IndexAbnormal
| NoDocument (query : string).

(** [fs] is the file system: the content of every file [fopen] can open. *)
Definition LoadFileAndIndex (fs : string → option string) (id : Z)
    (filename : string) (st : state) : outcome (list event * state) :=
  match fs filename with
  | None => Done ([WarnCannotOpen filename], st)
  | Some content =>
      st' ←! line_loop (String.length content) content id filename st;
      Done ([Indexing filename], st')
  end.

(** The loop of [main] over the configured files, [i] being the index of
    the first of [files]. *)
Fixpoint build_loop (fs : string → option string) (i : Z) (files : list string)
    (st : state) : outcome (list event * state) :=
  match files with
  | [] => Done ([], st)
  | f :: files' =>
      r ←! LoadFileAndIndex fs (i + 1) f st;
      r' ←! build_loop fs (i + 1) files' r.2;
      Done (r.1 ++ r'.1, r'.2)
  end.

Definition files : list string :=
  ["source_1.txt"; "source_2.txt"; "requirements.txt"; "test.txt"].

(** ** 5. Searching *)

Definition print_docs (d : list DocNode) : list event :=
  map (λ n, ResultRow (doc_name n) (frequency n)) d.

Definition Search (table : list (list WordNode)) (query : string)
    : outcome (list event) :=
  w ←! ToLowerCase MAX_WORD_LEN query;
  match find_word w (bucket table (Z.to_nat (HashFunction w))) with
  | Some (_, p, _) =>
      Done (ResultHeader query :: print_docs (doc_list p) ++
            match doc_list p with [] => [IndexAbnormal] | _ => [] end)
  | None => Done [NoDocument query]
  end.

(** The outcome of a query as the specification names it. *)
Inductive result : Type :=
| Found (postings : list (string * Z))
| NotFound.

Fixpoint rows (out : list event) : list (string * Z) :=
  match out with
  | [] => []
  | ResultRow name count :: out' => (name, count) :: rows out'
  | _ :: out' => rows out'
  end.

Definition result_of (out : list event) : result :=
  match out with
  | ResultHeader _ :: out' => Found (rows out')
  | _ => NotFound
  end.

Definition search (table : list (list WordNode)) (query : string)
    : outcome result :=
  out ←! Search table query; Done (result_of out).

(** * Specification-level views of the index *)

(** The lower-cased string, without a buffer. *)
Fixpoint lower (s : string) : string :=
  match s with
  | EmptyString => EmptyString
  | String c s' => String (tolower c) (lower s')
  end.

(** The polynomial with the characters of [str] as coefficients, highest
    power first, evaluated at [seed]. *)
Fixpoint polynomial_hash (str : string) : Z :=
  match str with
  | EmptyString => 0
  | String c str' =>
      char_to_int c * seed ^ Z.of_nat (String.length str') + polynomial_hash str'
  end.

(** Two characters that are the same letter up to case. *)
Definition is_upper (c : ascii) : bool :=
  ((65 <=? nat_of_ascii c) && (nat_of_ascii c <=? 90))%nat.

Definition same_letter (a b : ascii) : bool :=
  Ascii.eqb a b
  || (is_upper a && (nat_of_ascii b =? nat_of_ascii a + 32)%nat)
  || (is_upper b && (nat_of_ascii a =? nat_of_ascii b + 32)%nat).

(** [b] is [a] with the case of some letters changed. *)
Fixpoint case_variant (a b : string) : bool :=
  match a, b with
  | EmptyString, EmptyString => true
  | String x a', String y b' => same_letter x y && case_variant a' b'
  | _, _ => false
  end.

(** The posting list a chain holds for term [t], found the way [Search]
    finds it. *)
Definition chain_docs (t : string) (chain : list WordNode)
    : option (list DocNode) :=
  match find_word t chain with
  | Some (_, p, _) => Some (doc_list p)
  | None => None
  end.

Definition postings (table : list (list WordNode)) (t : string)
    : option (list DocNode) :=
  chain_docs t (bucket table (Z.to_nat (HashFunction t))).

(** The count recorded for [id] in a posting list, 0 without a posting. *)
Definition count_in (docs : list DocNode) (id : Z) : Z :=
  match find_doc id docs with
  | Some (_, d, _) => frequency d
  | None => 0
  end.

Definition posting_count (table : list (list WordNode)) (t : string) (id : Z) : Z :=
  count_in (default [] (postings table t)) id.

(** The tokens [strtok] hands out for a line, in order. *)
Fixpoint strtok_all (fuel : nat) (save : string) : list string :=
  match fuel with
  | O => []
  | S fuel' =>
      match strtok delimiters save with
      | None => []
      | Some (token, save') => token :: strtok_all fuel' save'
      end
  end.

Definition line_tokens (line : string) : list string :=
  strtok_all (String.length line) line.

(** The successive contents of [line_buffer]. *)
Fixpoint fgets_all (fuel : nat) (stream : string) : list string :=
  match fuel with
  | O => []
  | S fuel' =>
      match fgets MAX_LINE_LEN stream with
      | None => []
      | Some (line_buffer, stream') => line_buffer :: fgets_all fuel' stream'
      end
  end.

(** All tokens of a file, in the order [InsertIndex] receives them. *)
Definition file_tokens (content : string) : list string :=
  concat (map (λ b, line_tokens (cut_line b))
              (fgets_all (String.length content) content)).

(** [InsertIndex] for each of a list of tokens of one document. *)
Fixpoint insert_tokens (tokens : list string) (id : Z) (name : string)
    (st : state) : outcome state :=
  match tokens with
  | [] => Done st
  | token :: tokens' =>
      st' ←! InsertIndex token id name st;
      insert_tokens tokens' id name st'
  end.

(** Any sequence of calls of [InsertIndex]. *)
Fixpoint insert_all (calls : list (string * Z * string)) (st : state)
    : outcome state :=
  match calls with
  | [] => Done st
  | (raw, id, name) :: calls' =>
      st' ←! InsertIndex raw id name st;
      insert_all calls' st'
  end.

(** The number of tokens whose lower-cased form is [t]. *)
Definition occurrences (t : string) (tokens : list string) : Z :=
  Z.of_nat (length (filter (λ token, lower token = t) tokens)).

(** No request to [malloc] fails. *)
Definition no_failure (h : list bool) : Prop := Forall (λ ok, ok = true) h.

(** The array has its [TABLE_SIZE] slots. *)
Definition table_sized (table : list (list WordNode)) : Prop :=
  length table = Z.to_nat TABLE_SIZE.

(** The invariants of the data model: within a chain no two nodes hold the
    same word, within a posting list no two nodes hold the same document. *)
Definition docs_unique (p : WordNode) : Prop := NoDup (doc_id <$> doc_list p).

Definition chain_ok (chain : list WordNode) : Prop :=
  NoDup (word <$> chain) ∧ Forall docs_unique chain.

Definition table_ok (table : list (list WordNode)) : Prop :=
  Forall chain_ok table.

(** The words held anywhere in the table. *)
Definition table_words (table : list (list WordNode)) : list string :=
  word <$> concat table.

(** The nodes of a chain for words other than [w]. *)
Definition other_words (w : string) (chain : list WordNode) : list WordNode :=
  filter (λ n, word n ≠ w) chain.

(** ** The steps of [InsertIndex] as relations

    [docs_step id name docs h docs' h']: steps 3 and 4 turn the posting
    list [docs] into [docs'] and the heap [h] into [h']. *)
Inductive docs_step (id : Z) (name : string)
    : list DocNode → list bool → list DocNode → list bool → Prop :=
| docs_counted before d behind h :
    Forall (λ y, doc_id y ≠ id) before →
    doc_id d = id →
    frequency d < INT_MAX →
    docs_step id name (before ++ d :: behind) h
      (before ++ {| doc_id := doc_id d; doc_name := doc_name d;
                    frequency := frequency d + 1 |} :: behind) h
| docs_dropped docs h :
    Forall (λ y, doc_id y ≠ id) docs →
    docs_step id name docs (false :: h) docs h
| docs_created docs h h' :
    Forall (λ y, doc_id y ≠ id) docs →
    malloc h = (true, h') →
    (String.length name < DOC_NAME_LEN)%nat →
    docs_step id name docs h
      ({| doc_id := id; doc_name := name; frequency := 1 |} :: docs) h'.

(** [chain_step w id name chain h chain' h']: steps 1 to 4 for the
    non-empty word [w] turn the chain [chain] into [chain']. *)
Inductive chain_step (w : string) (id : Z) (name : string)
    : list WordNode → list bool → list WordNode → list bool → Prop :=
| chain_found before p behind h docs' h' :
    Forall (λ n, word n ≠ w) before →
    word p = w →
    docs_step id name (doc_list p) h docs' h' →
    chain_step w id name (before ++ p :: behind) h
      (before ++ {| word := w; doc_list := docs' |} :: behind) h'
| chain_dropped chain h :
    Forall (λ n, word n ≠ w) chain →
    chain_step w id name chain (false :: h) chain h
| chain_created chain h h1 docs' h' :
    Forall (λ n, word n ≠ w) chain →
    malloc h = (true, h1) →
    docs_step id name [] h1 docs' h' →
    chain_step w id name chain h
      ({| word := w; doc_list := docs' |} :: chain) h'.

(** A file the loader can take in without leaving defined behaviour: its
    name fits [doc_name], every token fits [word], and the tokens can be
    counted in an [int].  A file that cannot be opened is skipped. *)
Definition source_ok (fs : string → option string) (filename : string) : Prop :=
  match fs filename with
  | Some content =>
      (String.length filename < DOC_NAME_LEN)%nat
      ∧ Forall (λ token, (String.length token < MAX_WORD_LEN)%nat)
               (file_tokens content)
      ∧ Z.of_nat (length (file_tokens content)) ≤ INT_MAX
  | None => True
  end.

(** What the files [files], numbered from [i + 1], hold of term [t] under
    document number [id]. *)
Fixpoint ingested (fs : string → option string) (i : Z) (files : list string)
    (t : string) (id : Z) : Z :=
  match files with
  | [] => 0
  | f :: files' =>
      (if decide (id = i + 1)
       then match fs f with
            | Some content => occurrences t (file_tokens content)
            | None => 0
            end
       else 0)
      + ingested fs (i + 1) files' t id
  end.

(** A file system given by the list of its files (name, content). *)
Fixpoint fs_of (disk : list (string * string)) (filename : string)
    : option string :=
  match disk with
  | [] => None
  | (f, content) :: disk' =>
      if String.eqb f filename then Some content else fs_of disk' filename
  end.

(** Whether a call for the word [w] and the document [id] has to allocate:
    the word has no node in the chain yet, or its node has no posting for
    [id]. *)
Definition needs_allocation (w : string) (id : Z) (chain : list WordNode) : bool :=
  match find_word w chain with
  | Some (_, p, _) =>
      match find_doc id (doc_list p) with
      | Some _ => false
      | None => true
      end
  | None => true
  end.

(** Every posting carries the name that goes with its document number. *)
Definition names_ok (name_of : Z → string) (table : list (list WordNode)) : Prop :=
  Forall (Forall (λ p, Forall (λ d, doc_name d = name_of (doc_id d)) (doc_list p)))
         table.

(** The name [main]'s loop gives to document number [id] when it loads
    [files] numbered from 1. *)
Definition name_of (files : list string) (id : Z) : string :=
  default EmptyString (files !! Z.to_nat (id - 1)).

(** The state a call returns with (the cleared table when it does not). *)
Definition state_of (o : outcome state) : state :=
  match o with
  | Done st => st
  | Undefined _ => init []
  end.

(** A token of fifty characters, none of them a separator. *)
Definition long_token : string :=
  "this_is_a_very_long_identifier_that_keeps_going_on".

(** * Further views of the index *)

(** A posting after [d->frequency++]. *)
Definition incremented (d : DocNode) : DocNode :=
  {| doc_id := doc_id d; doc_name := doc_name d; frequency := frequency d + 1 |}.

(** What the node in slot [i] of the table looks like when [InsertIndex]
    made it: its word hashes to [i], has at least one character, fits the
    buffer and is lower-cased. *)
Definition word_ok (i : nat) (p : WordNode) : Prop :=
  Z.to_nat (HashFunction (word p)) = i
  ∧ word p ≠ EmptyString
  ∧ (String.length (word p) < MAX_WORD_LEN)%nat
  ∧ lower (word p) = word p.

Definition words_ok (table : list (list WordNode)) : Prop :=
  ∀ i chain, table !! i = Some chain → Forall (word_ok i) chain.

(** A posting as [InsertIndex] leaves it: counted at least once, the count
    an [int], the name within [doc_name]. *)
Definition doc_ok (d : DocNode) : Prop :=
  1 ≤ frequency d ≤ INT_MAX
  ∧ (String.length (doc_name d) < DOC_NAME_LEN)%nat.

Definition docs_ok (table : list (list WordNode)) : Prop :=
  Forall (Forall (λ p, Forall doc_ok (doc_list p))) table.

(** Every word node has a posting. *)
Definition postings_present (table : list (list WordNode)) : Prop :=
  Forall (Forall (λ p, doc_list p ≠ [])) table.

(** Document numbers from the head of a posting list on: strictly
    decreasing, none above [bound]. *)
Fixpoint decreasing (bound : Z) (ids : list Z) : Prop :=
  match ids with
  | [] => True
  | id :: ids' => id ≤ bound ∧ decreasing (id - 1) ids'
  end.

Definition newest_first (bound : Z) (table : list (list WordNode)) : Prop :=
  Forall (Forall (λ p, decreasing bound (doc_id <$> doc_list p))) table.

(** The states the program can be in while it builds the index: the cleared
    table, and what a returning call of [InsertIndex] makes of such a
    state. *)
Inductive reachable : state → Prop :=
| reachable_init h : reachable (init h)
| reachable_insert raw id name st st' :
    reachable st → InsertIndex raw id name st = Done st' → reachable st'.

(** No character of [s] is in [set]. *)
Fixpoint free_of (set s : string) : bool :=
  match s with
  | EmptyString => true
  | String c s' => negb (char_in c set) && free_of set s'
  end.

(** No line of [s] has more than [size] characters before its line feed;
    [left] is what the line at the start of [s] may still have. *)
Fixpoint lines_fit (size left : nat) (s : string) : bool :=
  match s with
  | EmptyString => true
  | String c s' =>
      if Ascii.eqb c LF then lines_fit size size s'
      else match left with
           | O => false
           | S left' => lines_fit size left' s'
           end
  end.

(** The string of [n] characters [c]. *)
Fixpoint replicate_char (n : nat) (c : ascii) : string :=
  match n with
  | O => EmptyString
  | S n' => String c (replicate_char n' c)
  end.

(** The strings of a list, one behind the other. *)
Definition join (parts : list string) : string :=
  foldr String.append EmptyString parts.

(** Every character of [s] is in [set]. *)
Fixpoint only_of (set s : string) : bool :=
  match s with
  | EmptyString => true
  | String c s' => char_in c set && only_of set s'
  end.

(** * The program *)

(** What [main] prints itself, and what the functions it calls print. *)
Inductive main_event : Type :=
| Banner
| Building
| Built
| Prompt
| Printed (e : event).

(** How a run of [main] ends: it returns, it is still in its query loop
    when the rounds granted to it are used up, or it leaves defined
    behaviour (the last case is the comparison of a [query] buffer that was
    never written). *)
Inductive ending : Type :=
| Exit
| Running
| Wrong (why : undefined_behaviour)
| UnwrittenQuery.

(** The characters [scanf] skips before a word and stops at behind it. *)
Definition whitespace : string :=
  String " "%char (String "009"%char (String "010"%char (String "011"%char
    (String "012"%char (String "013"%char EmptyString))))).

(** The characters of a word, up to the white space that is left unread. *)
Fixpoint scan_word (s : string) : string * string :=
  match s with
  | EmptyString => (EmptyString, EmptyString)
  | String c s' =>
      if char_in c whitespace then (EmptyString, s)
      else let r := scan_word s' in (String c r.1, r.2)
  end.

(** [scanf("%s", ...)] on what is left of the standard input: the word read
    and the input left, [None] at the end of the input. *)
Definition scanf_s (stdin : string) : option (string * string) :=
  match skip whitespace stdin with
  | EmptyString => None
  | s => Some (scan_word s)
  end.

(** The [while (1)] loop of [main], for at most [fuel] rounds; [query] is
    the C string in the buffer of that name, [None] as long as nothing was
    written to it. *)
Fixpoint query_loop (fuel : nat) (table : list (list WordNode))
    (query : option string) (stdin : string) : list main_event * ending :=
  match fuel with
  | O => ([], Running)
  | S fuel' =>
      match scanf_s stdin with
      | Some (w, stdin') =>
          if (String.length w <? MAX_WORD_LEN)%nat then
            let q := before (String NUL EmptyString) w in
            if String.eqb q "quit" then ([Prompt], Exit)
            else
              match Search table q with
              | Done out =>
                  let r := query_loop fuel' table (Some q) stdin' in
                  (Prompt :: map Printed out ++ r.1, r.2)
              | Undefined why => ([Prompt], Wrong why)
              end
          else ([Prompt], Wrong BufferOverflow)
      | None =>
          match query with
          | None => ([Prompt], UnwrittenQuery)
          | Some q =>
              if String.eqb q "quit" then ([Prompt], Exit)
              else
                match Search table q with
                | Done out =>
                    let r := query_loop fuel' table (Some q) stdin in
                    (Prompt :: map Printed out ++ r.1, r.2)
                | Undefined why => ([Prompt], Wrong why)
                end
          end
      end
  end.

Definition main (fs : string → option string) (h : list bool) (stdin : string)
    (fuel : nat) : list main_event * ending :=
  match build_loop fs 0 files (init h) with
  | Done (out, st) =>
      let r := query_loop fuel (HashTable st) None stdin in
      ([Banner; Building] ++ map Printed out ++ [Built] ++ r.1, r.2)
  | Undefined why => ([Banner; Building], Wrong why)
  end.

(** The standard input of a user who types the words [words], each on a
    line of its own. *)
Definition typed (words : list string) : string :=
  join (map (λ w, w +:+ String LF EmptyString) words).

(** A word a user can type as one query: at least one character, fewer than
    the buffer has, no white space, no NUL, and not the word that ends the
    program. *)
Definition query_word (w : string) : Prop :=
  w ≠ EmptyString
  ∧ (String.length w < MAX_WORD_LEN)%nat
  ∧ free_of whitespace w = true
  ∧ free_of (String NUL EmptyString) w = true
  ∧ w ≠ "quit".

(** What [Search] prints for a query. *)
Definition answer (table : list (list WordNode)) (query : string)
    : list main_event :=
  match Search table query with
  | Done out => map Printed out
  | Undefined _ => []
  end.

(** The rounds of the query loop for the queries [words]. *)
Definition rounds (table : list (list WordNode)) (words : list string)
    : list main_event :=
  concat (map (λ w, Prompt :: answer table w) words).

(** * Properties *)

(** ** Lower-casing *)

Lemma lower_length s : String.length (lower s) = String.length s.
Proof. induction s as [|c s IH]; simpl; congruence. Qed.

Lemma ToLowerCase_from_fits size i src :
  (i + String.length src < size)%nat →
  ToLowerCase_from size i src = Done (lower src).
Proof.
  revert i. induction src as [|c src IH]; intros i Hlen; simpl in *.
  - destruct (Nat.ltb_spec i size); [done | lia].
  - destruct (Nat.ltb_spec i size); [| lia].
    rewrite IH by lia. done.
Qed.

Lemma ToLowerCase_from_overflow size i src :
  (size ≤ i + String.length src)%nat →
  ToLowerCase_from size i src = Undefined BufferOverflow.
Proof.
  revert i. induction src as [|c src IH]; intros i Hlen; simpl in *.
  - destruct (Nat.ltb_spec i size); [lia | done].
  - destruct (Nat.ltb_spec i size); [| done].
    rewrite IH by lia. done.
Qed.

Lemma ToLowerCase_fits size src :
  (String.length src < size)%nat → ToLowerCase size src = Done (lower src).
Proof. intros. by apply ToLowerCase_from_fits. Qed.

Lemma ToLowerCase_overflow size src :
  (size ≤ String.length src)%nat →
  ToLowerCase size src = Undefined BufferOverflow.
Proof. intros. by apply ToLowerCase_from_overflow. Qed.

Lemma ToLowerCase_Done size src w :
  ToLowerCase size src = Done w →
  w = lower src ∧ (String.length src < size)%nat.
Proof.
  intros H. destruct (Nat.lt_ge_cases (String.length src) size) as [Hlt|Hge].
  - rewrite ToLowerCase_fits in H by done. by inversion H.
  - rewrite ToLowerCase_overflow in H by done. done.
Qed.

(** ** The hash *)

Lemma hash_loop_range h str :
  0 ≤ h < UINT_MODULUS → 0 ≤ hash_loop h str < UINT_MODULUS.
Proof.
  revert h. induction str as [|c str IH]; intros h Hh; simpl; [done|].
  apply IH. apply Z.mod_pos_bound. done.
Qed.

Lemma hash_loop_polynomial h str :
  hash_loop h str mod UINT_MODULUS =
  (h * seed ^ Z.of_nat (String.length str) + polynomial_hash str) mod UINT_MODULUS.
Proof.
  revert h. induction str as [|c str IH]; intros h; simpl String.length.
  - simpl. f_equal. lia.
  - cbn [hash_loop polynomial_hash]. rewrite IH.
    rewrite Nat2Z.inj_succ, Z.pow_succ_r by lia.
    rewrite <- Zplus_mod_idemp_l, Zmult_mod_idemp_l, Zplus_mod_idemp_l.
    f_equal. lia.
Qed.

Lemma HashFunction_range str : 0 ≤ HashFunction str < TABLE_SIZE.
Proof. apply Z.mod_pos_bound. done. Qed.

(** C8.  [HashFunction] is the polynomial rolling hash with multiplier 131
    over the characters of the string, computed in 32-bit unsigned
    arithmetic and reduced modulo the table size 1007; being a function of
    the string alone it gives the same slot for the same string, and the
    slot is always an index of the table. *)
Theorem HashFunction_polynomial str :
  HashFunction str = (polynomial_hash str mod UINT_MODULUS) mod TABLE_SIZE
  ∧ 0 ≤ HashFunction str < TABLE_SIZE.
Proof.
  split; [|apply HashFunction_range].
  unfold HashFunction.
  rewrite <- (Z.mod_small (hash_loop 0 str) UINT_MODULUS)
    by (apply hash_loop_range; done).
  by rewrite hash_loop_polynomial, Z.mul_0_l, Z.add_0_l.
Qed.

Lemma HashFunction_index (table : list (list WordNode)) w :
  table_sized table → (Z.to_nat (HashFunction w) < length table)%nat.
Proof.
  unfold table_sized. intros ->.
  pose proof (HashFunction_range w). lia.
Qed.

(** ** Case variants *)

Lemma same_letter_tolower a b : same_letter a b = true → tolower a = tolower b.
Proof.
  unfold same_letter, is_upper, tolower. intros H.
  apply orb_true_iff in H as [H|H]; [apply orb_true_iff in H as [H|H]|].
  - by apply Ascii.eqb_eq in H as ->.
  - apply andb_true_iff in H as [Ha Hb]. apply Nat.eqb_eq in Hb.
    rewrite Ha. apply andb_true_iff in Ha as [?%Nat.leb_le ?%Nat.leb_le].
    rewrite Hb. destruct (Nat.leb_spec (nat_of_ascii a + 32) 90); [lia|].
    rewrite andb_false_r, <- Hb. by rewrite ascii_nat_embedding.
  - apply andb_true_iff in H as [Hb Ha]. apply Nat.eqb_eq in Ha.
    rewrite Hb. apply andb_true_iff in Hb as [?%Nat.leb_le ?%Nat.leb_le].
    rewrite Ha. destruct (Nat.leb_spec (nat_of_ascii b + 32) 90); [lia|].
    rewrite andb_false_r, <- Ha. by rewrite ascii_nat_embedding.
Qed.

Lemma case_variant_lower a b : case_variant a b = true → lower a = lower b.
Proof.
  revert b. induction a as [|x a IH]; intros [|y b] H; simpl in *; try done.
  apply andb_true_iff in H as [Hxy Hab].
  by rewrite (same_letter_tolower _ _ Hxy), (IH _ Hab).
Qed.

Lemma case_variant_length a b :
  case_variant a b = true → String.length a = String.length b.
Proof.
  revert b. induction a as [|x a IH]; intros [|y b] H; simpl in *; try done.
  apply andb_true_iff in H as [_ Hab]. by rewrite (IH _ Hab).
Qed.

Lemma case_variant_ToLowerCase size a b :
  case_variant a b = true → ToLowerCase size a = ToLowerCase size b.
Proof.
  intros H. destruct (Nat.lt_ge_cases (String.length a) size) as [Hlt|Hge].
  - rewrite !ToLowerCase_fits, (case_variant_lower _ _ H); try done.
    by rewrite <- (case_variant_length _ _ H).
  - rewrite !ToLowerCase_overflow; try done.
    by rewrite <- (case_variant_length _ _ H).
Qed.

(** ** Scans *)

Section find_first.
Context {A : Type} (test : A → bool).

Lemma find_first_Some p before x behind :
  find_first test p = Some (before, x, behind) →
  p = before ++ x :: behind ∧ test x = true
  ∧ Forall (λ y, test y = false) before.
Proof.
  revert before. induction p as [|n p IH]; intros before H; simpl in H; [done|].
  destruct (test n) eqn:Hn.
  - inversion H; subst. by repeat split.
  - destruct (find_first test p) as [[[b y] c]|]; [|done].
    inversion H; subst. destruct (IH b eq_refl) as (-> & ? & ?).
    repeat split; [done|]. by constructor.
Qed.

Lemma find_first_None p :
  find_first test p = None ↔ Forall (λ y, test y = false) p.
Proof.
  induction p as [|n p IH]; simpl; [done|].
  destruct (test n) eqn:Hn.
  - split; [done|]. intros H. inversion H; congruence.
  - destruct (find_first test p) as [[[b y] c]|].
    + split; [done|]. intros H. inversion H; subst.
      by apply IH in H3.
    + split; [|done]. intros _. constructor; [done|]. by apply IH.
Qed.

Lemma find_first_at before x behind :
  Forall (λ y, test y = false) before → test x = true →
  find_first test (before ++ x :: behind) = Some (before, x, behind).
Proof.
  intros Hb Hx. induction Hb as [|y before Hy _ IH]; simpl.
  - by rewrite Hx.
  - by rewrite Hy, IH.
Qed.

(** What a scan finds does not depend on nodes that fail the test. *)
Lemma find_first_replace {B : Type} (f : A → B) before x x' behind :
  test x = false → test x' = false →
  (λ r, f r.1.2) <$> find_first test (before ++ x' :: behind)
  = (λ r, f r.1.2) <$> find_first test (before ++ x :: behind).
Proof.
  intros Hx Hx'. induction before as [|y before IH]; simpl.
  - rewrite Hx, Hx'. by destruct (find_first test behind) as [[[??]?]|].
  - destruct (test y); [done|].
    destruct (find_first test (before ++ x' :: behind)) as [[[??]?]|],
             (find_first test (before ++ x :: behind)) as [[[??]?]|];
      simpl in *; congruence.
Qed.

Lemma find_first_cons {B : Type} (f : A → B) x p :
  test x = false →
  (λ r, f r.1.2) <$> find_first test (x :: p)
  = (λ r, f r.1.2) <$> find_first test p.
Proof.
  intros Hx. simpl. rewrite Hx.
  by destruct (find_first test p) as [[[??]?]|].
Qed.
End find_first.

(** ** The steps of [InsertIndex] *)

Lemma find_word_Some w chain before p behind :
  find_word w chain = Some (before, p, behind) →
  chain = before ++ p :: behind ∧ word p = w
  ∧ Forall (λ n, word n ≠ w) before.
Proof.
  intros (-> & Hp & Hb)%find_first_Some. apply String.eqb_eq in Hp.
  repeat split; [done|]. eapply Forall_impl; [exact Hb|].
  by intros n ?%String.eqb_neq.
Qed.

Lemma find_word_None w chain :
  find_word w chain = None ↔ Forall (λ n, word n ≠ w) chain.
Proof.
  unfold find_word. rewrite find_first_None.
  apply Forall_iff. intros n. apply String.eqb_neq.
Qed.

Lemma find_word_at w before p behind chain :
  chain = before ++ p :: behind →
  Forall (λ n, word n ≠ w) before → word p = w →
  find_word w chain = Some (before, p, behind).
Proof.
  intros -> Hb Hp. apply find_first_at; [|by apply String.eqb_eq].
  eapply Forall_impl; [exact Hb|]. by intros n ?%String.eqb_neq.
Qed.

Lemma find_word_head w p chain :
  word p = w → find_word w (p :: chain) = Some ([], p, chain).
Proof. intros. by apply (find_word_at w []). Qed.

Lemma find_doc_Some id docs before d behind :
  find_doc id docs = Some (before, d, behind) →
  docs = before ++ d :: behind ∧ doc_id d = id
  ∧ Forall (λ y, doc_id y ≠ id) before.
Proof.
  intros (-> & Hp & Hb)%find_first_Some. apply Z.eqb_eq in Hp.
  repeat split; [done|]. eapply Forall_impl; [exact Hb|].
  by intros n ?%Z.eqb_neq.
Qed.

Lemma find_doc_None id docs :
  find_doc id docs = None ↔ Forall (λ y, doc_id y ≠ id) docs.
Proof.
  unfold find_doc. rewrite find_first_None.
  apply Forall_iff. intros n. apply Z.eqb_neq.
Qed.

Lemma find_doc_at id before d behind docs :
  docs = before ++ d :: behind →
  Forall (λ y, doc_id y ≠ id) before → doc_id d = id →
  find_doc id docs = Some (before, d, behind).
Proof.
  intros -> Hb Hp. apply find_first_at; [|by apply Z.eqb_eq].
  eapply Forall_impl; [exact Hb|]. by intros n ?%Z.eqb_neq.
Qed.

Lemma find_doc_head id d docs :
  doc_id d = id → find_doc id (d :: docs) = Some ([], d, docs).
Proof. intros. by apply (find_doc_at id []). Qed.

Lemma strcpy_Done size src s :
  strcpy size src = Done s → s = src ∧ (String.length src < size)%nat.
Proof.
  unfold strcpy. destruct (Nat.ltb_spec (String.length src) size); [|done].
  by intros [= <-].
Qed.

Lemma malloc_false h h' : malloc h = (false, h') → h = false :: h'.
Proof. destruct h as [|[] h]; simpl; congruence. Qed.

Lemma record_occurrence_Done id name docs h docs' h' :
  record_occurrence id name docs h = Done (docs', h') →
  docs_step id name docs h docs' h'.
Proof.
  unfold record_occurrence, increment.
  destruct (find_doc id docs) as [[[before d] behind]|] eqn:Hfind.
  - apply find_doc_Some in Hfind as (-> & Hd & Hb).
    destruct (Z.ltb_spec (frequency d) INT_MAX); simpl; [|done].
    intros [= <- <-]. by constructor.
  - apply find_doc_None in Hfind.
    destruct (malloc h) as [[] h1] eqn:Hm.
    + destruct (strcpy DOC_NAME_LEN name) as [name'|] eqn:Hcpy; simpl; [|done].
      apply strcpy_Done in Hcpy as [-> ?].
      intros [= <- <-]. by constructor.
    + apply malloc_false in Hm as ->. intros [= <- <-]. by constructor.
Qed.

Lemma insert_bucket (table : list (list WordNode)) idx :
  <[idx := bucket table idx]> table = table.
Proof.
  unfold bucket. destruct (table !! idx) as [chain|] eqn:H; simpl.
  - by apply list_insert_id.
  - apply list_insert_ge. by apply lookup_ge_None.
Qed.

(** Every call that returns is one [chain_step] on the bucket of the word,
    or the early return for a token without characters. *)
Lemma InsertIndex_Done raw id name st st' :
  InsertIndex raw id name st = Done st' →
  (String.length raw < MAX_WORD_LEN)%nat ∧
  ((lower raw = EmptyString ∧ st' = st) ∨
   (lower raw ≠ EmptyString ∧
    ∃ chain',
      chain_step (lower raw) id name
        (bucket (HashTable st) (Z.to_nat (HashFunction (lower raw)))) (heap st)
        chain' (heap st')
      ∧ HashTable st' =
        <[Z.to_nat (HashFunction (lower raw)) := chain']> (HashTable st))).
Proof.
  unfold InsertIndex.
  destruct (ToLowerCase MAX_WORD_LEN raw) as [w|] eqn:Hw; simpl; [|done].
  apply ToLowerCase_Done in Hw as [-> Hlen]. intros H. split; [done|].
  set (w := lower raw) in *. set (idx := Z.to_nat (HashFunction w)) in *.
  destruct (Nat.eqb_spec (String.length w) 0) as [Hz|Hnz].
  { injection H as <-. left. split; [|done]. by destruct w. }
  assert (w ≠ EmptyString) as Hne by (by intros E; rewrite E in Hnz).
  right. split; [done|]. revert H. unfold find_or_create.
  destruct (find_word w (bucket (HashTable st) idx))
    as [[[before p] behind]|] eqn:Hfind; simpl.
  - apply find_word_Some in Hfind as (Hchain & Hp & Hb).
    destruct (record_occurrence id name (doc_list p) (heap st))
      as [[docs' h']|] eqn:Hrec; simpl; [|done].
    apply record_occurrence_Done in Hrec. intros [= <-]; simpl.
    eexists. split; [|done]. rewrite Hchain, Hp. by constructor.
  - apply find_word_None in Hfind.
    destruct (malloc (heap st)) as [[] h1] eqn:Hm.
    + destruct (strcpy MAX_WORD_LEN w) as [w'|] eqn:Hcpy; simpl; [|done].
      apply strcpy_Done in Hcpy as [-> _].
      destruct (record_occurrence id name [] h1)
        as [[docs' h']|] eqn:Hrec; simpl; [|done].
      apply record_occurrence_Done in Hrec. intros [= <-]; simpl.
      eexists. split; [|done]. by econstructor.
    + apply malloc_false in Hm. simpl. intros [= <-]; simpl.
      eexists. split; [|by rewrite insert_bucket].
      rewrite Hm. by constructor.
Qed.

(** ** The invariants of the data model *)

Lemma docs_step_ids id name docs h docs' h' :
  docs_step id name docs h docs' h' →
  doc_id <$> docs' = doc_id <$> docs
  ∨ (doc_id <$> docs' = id :: (doc_id <$> docs) ∧ id ∉ doc_id <$> docs).
Proof.
  destruct 1 as [before d behind h Hb Hd Hf | docs h Hall | docs h h' Hall Hm Hn].
  - left. by rewrite !fmap_app, !fmap_cons.
  - by left.
  - right. split; [done|]. intros (y & Hy & Hin)%list_elem_of_fmap.
    by eapply Forall_forall in Hall.
Qed.

Lemma docs_step_unique id name docs h docs' h' :
  docs_step id name docs h docs' h' →
  NoDup (doc_id <$> docs) → NoDup (doc_id <$> docs').
Proof.
  intros [->|[-> Hnew]]%docs_step_ids Hnd; [done|]. by constructor.
Qed.

Lemma chain_step_words w id name chain h chain' h' :
  chain_step w id name chain h chain' h' →
  word <$> chain' = word <$> chain
  ∨ (word <$> chain' = w :: (word <$> chain) ∧ w ∉ word <$> chain).
Proof.
  destruct 1 as [before p behind h docs' h' Hb Hp Hd | chain h Hall
                | chain h h1 docs' h' Hall Hm Hd].
  - left. by rewrite !fmap_app, !fmap_cons, Hp.
  - by left.
  - right. split; [done|]. intros (y & Hy & Hin)%list_elem_of_fmap.
    by eapply Forall_forall in Hall.
Qed.

Lemma chain_step_ok w id name chain h chain' h' :
  chain_step w id name chain h chain' h' → chain_ok chain → chain_ok chain'.
Proof.
  intros Hstep [Hwords Hdocs]. split.
  - destruct (chain_step_words _ _ _ _ _ _ _ Hstep) as [->|[-> Hnew]]; [done|].
    by constructor.
  - destruct Hstep as [before p behind h docs' h' Hb Hp Hd | chain h Hall
                      | chain h h1 docs' h' Hall Hm Hd]; [| done |].
    + apply Forall_app in Hdocs as [Hbefore Hrest].
      apply Forall_cons in Hrest as [Hp' Hbehind].
      apply Forall_app. split; [done|]. constructor; [|done].
      unfold docs_unique in *; simpl. by eapply docs_step_unique.
    + constructor; [|done]. unfold docs_unique; simpl.
      eapply docs_step_unique; [exact Hd|]. constructor.
Qed.

Lemma bucket_ok table idx : table_ok table → chain_ok (bucket table idx).
Proof.
  intros Hok. unfold bucket. destruct (table !! idx) as [chain|] eqn:H; simpl.
  - by eapply Forall_lookup_1 in Hok.
  - split; constructor.
Qed.

Lemma empty_table_ok : table_ok empty_table.
Proof. apply Forall_replicate. split; constructor. Qed.

Lemma empty_table_sized : table_sized empty_table.
Proof. apply length_replicate. Qed.

Lemma InsertIndex_ok raw id name st st' :
  table_ok (HashTable st) → InsertIndex raw id name st = Done st' →
  table_ok (HashTable st').
Proof.
  intros Hok [_ [[_ ->]|(_ & chain' & Hstep & ->)]]%InsertIndex_Done; [done|].
  apply Forall_insert; [done|].
  eapply chain_step_ok; [exact Hstep|]. by apply bucket_ok.
Qed.

Lemma InsertIndex_sized raw id name st st' :
  table_sized (HashTable st) → InsertIndex raw id name st = Done st' →
  table_sized (HashTable st').
Proof.
  intros Hok [_ [[_ ->]|(_ & chain' & Hstep & ->)]]%InsertIndex_Done; [done|].
  unfold table_sized. by rewrite length_insert.
Qed.

(** C2.  Every sequence of calls of [InsertIndex] that runs to its end
    keeps the two uniqueness invariants: in every chain of the table no two
    word nodes hold the same word, and in every posting list no two posting
    nodes hold the same [doc_id].  (A single call is the sequence of length
    one; the table cleared by [main] satisfies the invariants,
    [empty_table_ok].) *)
Theorem insert_all_preserves_invariants calls st st' :
  table_ok (HashTable st) → insert_all calls st = Done st' →
  table_ok (HashTable st').
Proof.
  revert st. induction calls as [|[[raw id] name] calls IH]; intros st Hok; simpl.
  - by intros [= <-].
  - destruct (InsertIndex raw id name st) as [st1|] eqn:H1; simpl; [|done].
    apply IH. by eapply InsertIndex_ok.
Qed.

Lemma insert_all_preserves_invariants_witness :
  ∃ st',
    insert_all [("The", 1, "a.txt"); ("the", 1, "a.txt"); ("cat", 2, "b.txt");
                ("THE", 2, "b.txt")] (init [true; false]) = Done st'
    ∧ table_ok (HashTable st').
Proof.
  eexists. split.
  - vm_compute. reflexivity.
  - apply (insert_all_preserves_invariants
             [("The", 1, "a.txt"); ("the", 1, "a.txt"); ("cat", 2, "b.txt");
              ("THE", 2, "b.txt")] (init [true; false])).
    + apply empty_table_ok.
    + vm_compute. reflexivity.
Defined.

(** ** The frame of an insertion *)

Lemma chain_step_other_words w id name chain h chain' h' :
  chain_step w id name chain h chain' h' →
  other_words w chain' = other_words w chain.
Proof.
  unfold other_words.
  destruct 1 as [before p behind h docs' h' Hb Hp Hd | chain h Hall
                | chain h h1 docs' h' Hall Hm Hd]; [| done |].
  - rewrite !filter_app. f_equal.
    rewrite !filter_cons. simpl.
    destruct (decide (w ≠ w)); [done|]. by destruct (decide (word p ≠ w)).
  - rewrite filter_cons. simpl. by destruct (decide (w ≠ w)).
Qed.

Lemma bucket_insert (table : list (list WordNode)) idx chain i :
  bucket (<[idx := chain]> table) i =
  if decide (i = idx ∧ (idx < length table)%nat) then chain else bucket table i.
Proof.
  unfold bucket. destruct (decide (i = idx)) as [->|Hne].
  - destruct (Nat.lt_ge_cases idx (length table)).
    + rewrite list_lookup_insert_eq by done.
      by destruct (decide _) as [|[]].
    + rewrite list_insert_ge by done.
      destruct (decide _) as [[_ ?]|]; [lia|done].
  - rewrite list_lookup_insert_ne by done.
    destruct (decide _) as [[? _]|]; done.
Qed.

(** C10.  A call of [InsertIndex] that returns leaves every slot of the
    table other than the slot [HashFunction w] of the lower-cased word [w]
    as it was, and in every chain the word nodes whose word is not [w] are
    the same nodes, in the same order, with the same posting lists. *)
Theorem InsertIndex_frame raw id name w st st' :
  ToLowerCase MAX_WORD_LEN raw = Done w →
  InsertIndex raw id name st = Done st' →
  (∀ i, i ≠ Z.to_nat (HashFunction w) →
        HashTable st' !! i = HashTable st !! i)
  ∧ (∀ i, other_words w (bucket (HashTable st') i)
          = other_words w (bucket (HashTable st) i)).
Proof.
  intros [-> _]%ToLowerCase_Done
    [_ [[_ ->]|(_ & chain' & Hstep & ->)]]%InsertIndex_Done; [done|].
  split.
  - intros i Hi. by rewrite list_lookup_insert_ne.
  - intros i. rewrite bucket_insert.
    destruct (decide _) as [[-> _]|]; [|done].
    by eapply chain_step_other_words.
Qed.

(** ** Counting *)

Lemma chain_docs_fmap t chain :
  chain_docs t chain = (λ r, doc_list r.1.2) <$> find_word t chain.
Proof. unfold chain_docs. by destruct (find_word t chain) as [[[??]?]|]. Qed.

Lemma count_in_fmap docs id :
  count_in docs id = default 0 ((λ r, frequency r.1.2) <$> find_doc id docs).
Proof. unfold count_in. by destruct (find_doc id docs) as [[[??]?]|]. Qed.

Lemma malloc_no_failure h ok h' :
  malloc h = (ok, h') → no_failure h → ok = true ∧ no_failure h'.
Proof.
  destruct h as [|b h]; simpl; intros [= <- <-] Hh; [done|].
  by apply Forall_cons in Hh.
Qed.

Lemma docs_step_count id name docs h docs' h' :
  docs_step id name docs h docs' h' → no_failure h →
  no_failure h' ∧
  ∀ id', count_in docs' id' =
         count_in docs id' + (if decide (id' = id) then 1 else 0).
Proof.
  destruct 1 as [before d behind h Hb Hd Hf | docs h Hall | docs h h' Hall Hm Hn];
    intros Hh.
  - split; [done|]. intros id'. destruct (decide (id' = id)) as [->|Hne].
    + unfold count_in.
      rewrite !(find_doc_at id before _ behind _ eq_refl) by done. done.
    + rewrite !count_in_fmap. unfold find_doc.
      rewrite (find_first_replace _ frequency before d); [lia| |];
        simpl; apply Z.eqb_neq; congruence.
  - by apply Forall_cons in Hh as [? _].
  - apply (malloc_no_failure _ _ _ Hm) in Hh as [_ Hh']. split; [done|].
    intros id'. destruct (decide (id' = id)) as [->|Hne].
    + unfold count_in. rewrite find_doc_head by done.
      apply find_doc_None in Hall as ->. done.
    + rewrite !count_in_fmap. unfold find_doc.
      rewrite find_first_cons; [lia|]. simpl. apply Z.eqb_neq. congruence.
Qed.

Lemma chain_step_other w id name chain h chain' h' t :
  chain_step w id name chain h chain' h' → t ≠ w →
  chain_docs t chain' = chain_docs t chain.
Proof.
  intros Hstep Ht. rewrite !chain_docs_fmap. unfold find_word.
  destruct Hstep as [before p behind h docs' h' Hb Hp Hd | chain h Hall
                    | chain h h1 docs' h' Hall Hm Hd]; [| done |].
  - apply find_first_replace; simpl; apply String.eqb_neq; congruence.
  - apply find_first_cons. simpl. apply String.eqb_neq. congruence.
Qed.

Lemma chain_step_count w id name chain h chain' h' :
  chain_step w id name chain h chain' h' → no_failure h →
  no_failure h' ∧
  ∀ id', count_in (default [] (chain_docs w chain')) id' =
         count_in (default [] (chain_docs w chain)) id'
         + (if decide (id' = id) then 1 else 0).
Proof.
  destruct 1 as [before p behind h docs' h' Hb Hp Hd | chain h Hall
                | chain h h1 docs' h' Hall Hm Hd]; intros Hh.
  - unfold chain_docs.
    rewrite !(find_word_at w before _ behind _ eq_refl) by done. simpl.
    by eapply docs_step_count.
  - by apply Forall_cons in Hh as [? _].
  - apply (malloc_no_failure _ _ _ Hm) in Hh as [_ Hh1].
    unfold chain_docs. rewrite find_word_head by done.
    apply find_word_None in Hall as ->. simpl.
    by eapply docs_step_count.
Qed.

(** What one call adds to the counts when no allocation fails. *)
Lemma InsertIndex_count raw id name st st' :
  InsertIndex raw id name st = Done st' →
  table_sized (HashTable st) → no_failure (heap st) →
  no_failure (heap st') ∧
  ∀ t id', posting_count (HashTable st') t id' =
    posting_count (HashTable st) t id'
    + (if decide (lower raw = t ∧ t ≠ EmptyString ∧ id' = id) then 1 else 0).
Proof.
  intros [_ [[Hw ->]|(Hw & chain' & Hstep & Htable)]]%InsertIndex_Done Hsz Hh.
  { split; [done|]. intros t id'.
    destruct (decide _) as [(? & ? & ?)|]; [congruence|lia]. }
  split; [by eapply chain_step_count|].
  intros t id'. unfold posting_count, postings. rewrite Htable, bucket_insert.
  destruct (decide (lower raw = t)) as [<-|Hne].
  - destruct (decide (_ ∧ _)) as [_|[]];
      [|split; [done|by apply HashFunction_index]].
    destruct (chain_step_count _ _ _ _ _ _ _ Hstep Hh) as [_ ->].
    destruct (decide (id' = id)) as [->|], (decide (_ ∧ _)) as [(_&_&?)|Hn];
      try done.
    destruct Hn. done.
  - destruct (decide (_ ∧ _ ∧ _)) as [(? & _)|_]; [done|].
    destruct (decide (_ ∧ _)) as [[Hidx _]|_]; [|lia].
    rewrite Hidx, (chain_step_other _ _ _ _ _ _ _ t Hstep) by done. lia.
Qed.

(** When a call is defined. *)
Lemma InsertIndex_defined raw id name st :
  (String.length raw < MAX_WORD_LEN)%nat →
  (String.length name < DOC_NAME_LEN)%nat →
  posting_count (HashTable st) (lower raw) id < INT_MAX →
  ∃ st', InsertIndex raw id name st = Done st'.
Proof.
  intros Hraw Hname Hcount. unfold InsertIndex.
  rewrite ToLowerCase_fits by done. simpl.
  destruct (String.length (lower raw) =? 0)%nat; [by eexists|].
  unfold posting_count, postings, chain_docs in Hcount.
  unfold find_or_create.
  assert (∀ h, ∃ r, record_occurrence id name [] h = Done r) as Hnew.
  { intros h. unfold record_occurrence. simpl.
    destruct (malloc h) as [[] h1]; [|by eexists].
    unfold strcpy. destruct (Nat.ltb_spec (String.length name) DOC_NAME_LEN);
      [by eexists|lia]. }
  destruct (find_word _ _) as [[[before p] behind]|]; simpl.
  - simpl in Hcount. unfold record_occurrence, count_in in *.
    destruct (find_doc id (doc_list p)) as [[[b d] c]|].
    + unfold increment. destruct (Z.ltb_spec (frequency d) INT_MAX); [|lia].
      by eexists.
    + destruct (malloc (heap st)) as [[] h1]; [|by eexists].
      unfold strcpy. destruct (Nat.ltb_spec (String.length name) DOC_NAME_LEN);
        [by eexists|lia].
  - destruct (malloc (heap st)) as [[] h1]; [|by eexists].
    unfold strcpy at 1. rewrite lower_length.
    destruct (Nat.ltb_spec (String.length raw) MAX_WORD_LEN); [|lia]. simpl.
    destruct (Hnew h1) as [r ->]. by eexists.
Qed.

(** ** Tokens and lines *)

Lemma skip_length accept s : (String.length (skip accept s) ≤ String.length s)%nat.
Proof.
  induction s as [|c s IH]; simpl; [done|].
  destruct (char_in c accept); simpl; lia.
Qed.

Lemma skip_head accept s c s' :
  skip accept s = String c s' → char_in c accept = false.
Proof.
  induction s as [|c0 s IH]; simpl; [done|].
  destruct (char_in c0 accept) eqn:Hc; [done|]. by intros [= <- <-].
Qed.

Lemma scan_token_length delims s :
  (String.length (scan_token delims s).2 ≤ String.length s)%nat.
Proof.
  induction s as [|c s IH]; simpl; [done|].
  destruct (char_in c delims); simpl; lia.
Qed.

(** A call of [strtok] that returns a token returns a token with at least
    one character and moves on in the text. *)
Lemma strtok_Some delims save token save' :
  strtok delims save = Some (token, save') →
  token ≠ EmptyString ∧ (String.length save' < String.length save)%nat.
Proof.
  unfold strtok. pose proof (skip_length delims save) as Hlen.
  destruct (skip delims save) as [|c s] eqn:Hskip; [done|].
  apply skip_head in Hskip. simpl. rewrite Hskip. simpl.
  intros [= <- <-]. split; [done|].
  pose proof (scan_token_length delims s). simpl in Hlen. lia.
Qed.

Lemma strtok_all_fuel n m save :
  (String.length save ≤ n)%nat → (String.length save ≤ m)%nat →
  strtok_all n save = strtok_all m save.
Proof.
  revert m save. induction n as [|n IH]; intros [|m] save Hn Hm; simpl; try done.
  - destruct save; [done|simpl in Hn; lia].
  - destruct save; [done|simpl in Hm; lia].
  - destruct (strtok delimiters save) as [[token save']|] eqn:Htok; [|done].
    apply strtok_Some in Htok as [_ Hlt]. f_equal. apply IH; lia.
Qed.

Lemma strtok_all_nonempty fuel save :
  Forall (λ token, token ≠ EmptyString) (strtok_all fuel save).
Proof.
  revert save. induction fuel as [|fuel IH]; intros save; simpl; [done|].
  destruct (strtok delimiters save) as [[token save']|] eqn:Htok; [|done].
  apply strtok_Some in Htok as [Hne _]. by constructor.
Qed.

Lemma fgets_read_length room stream :
  (String.length (fgets_read room stream).2 ≤ String.length stream)%nat.
Proof.
  revert stream. induction room as [|room IH]; intros [|c s]; simpl; try done.
  destruct (Ascii.eqb c LF); simpl; [lia|]. specialize (IH s). lia.
Qed.

Lemma fgets_read_progress room c s :
  (String.length (fgets_read (S room) (String c s)).2
   < String.length (String c s))%nat.
Proof.
  cbn [fgets_read]. pose proof (fgets_read_length room s).
  destruct (Ascii.eqb c LF); simpl; lia.
Qed.

Lemma fgets_Some stream line_buffer stream' :
  fgets MAX_LINE_LEN stream = Some (line_buffer, stream') →
  (String.length stream' < String.length stream)%nat.
Proof.
  unfold fgets. destruct stream as [|c s]; [done|].
  intros Hread. apply (inj Some) in Hread.
  pose proof (fgets_read_progress 1022 c s) as Hlt.
  change (S 1022) with (MAX_LINE_LEN - 1)%nat in Hlt.
  by rewrite Hread in Hlt.
Qed.

Lemma fgets_all_fuel n m stream :
  (String.length stream ≤ n)%nat → (String.length stream ≤ m)%nat →
  fgets_all n stream = fgets_all m stream.
Proof.
  revert m stream. induction n as [|n IH]; intros [|m] stream Hn Hm;
    try done.
  - destruct stream; [done|simpl in Hn; lia].
  - destruct stream; [done|simpl in Hm; lia].
  - cbn [fgets_all].
    destruct (fgets MAX_LINE_LEN stream) as [[line_buffer stream']|] eqn:Hget;
      [|done].
    apply fgets_Some in Hget. f_equal. apply IH; lia.
Qed.

Lemma file_tokens_nonempty content :
  Forall (λ token, token ≠ EmptyString) (file_tokens content).
Proof.
  unfold file_tokens. apply Forall_concat, Forall_map, Forall_true.
  intros b. apply strtok_all_nonempty.
Qed.

(** The loops of [LoadFileAndIndex] insert the tokens one after the other. *)
Lemma insert_tokens_app tokens1 tokens2 id name st :
  insert_tokens (tokens1 ++ tokens2) id name st =
  (st' ←! insert_tokens tokens1 id name st; insert_tokens tokens2 id name st').
Proof.
  revert st. induction tokens1 as [|token tokens1 IH]; intros st; simpl; [done|].
  destruct (InsertIndex token id name st); simpl; [apply IH|done].
Qed.

Lemma token_loop_tokens fuel save id name st :
  token_loop fuel save id name st = insert_tokens (strtok_all fuel save) id name st.
Proof.
  revert save st. induction fuel as [|fuel IH]; intros save st; simpl; [done|].
  destruct (strtok delimiters save) as [[token save']|]; [|done]. simpl.
  destruct (InsertIndex token id name st); simpl; [apply IH|done].
Qed.

Lemma line_loop_tokens fuel stream id name st :
  line_loop fuel stream id name st =
  insert_tokens
    (concat (map (λ b, line_tokens (cut_line b)) (fgets_all fuel stream)))
    id name st.
Proof.
  revert stream st. induction fuel as [|fuel IH]; intros stream st;
    [done|].
  cbn [line_loop fgets_all].
  destruct (fgets MAX_LINE_LEN stream) as [[line_buffer stream']|]; [|done].
  cbn [map concat]. rewrite insert_tokens_app, token_loop_tokens.
  unfold line_tokens.
  destruct (insert_tokens _ id name st); simpl; [apply IH|done].
Qed.

(** The fuel of the two loops is enough: more of it changes nothing. *)
Lemma token_loop_fuel fuel save id name st :
  (String.length save ≤ fuel)%nat →
  token_loop fuel save id name st =
  token_loop (String.length save) save id name st.
Proof.
  intros. rewrite !token_loop_tokens. f_equal. by apply strtok_all_fuel.
Qed.

Lemma line_loop_fuel fuel stream id name st :
  (String.length stream ≤ fuel)%nat →
  line_loop fuel stream id name st =
  line_loop (String.length stream) stream id name st.
Proof.
  intros. rewrite !line_loop_tokens. do 3 f_equal. by apply fgets_all_fuel.
Qed.

Lemma LoadFileAndIndex_tokens fs id filename content st :
  fs filename = Some content →
  LoadFileAndIndex fs id filename st =
  (st' ←! insert_tokens (file_tokens content) id filename st;
   Done ([Indexing filename], st')).
Proof.
  intros Hfs. unfold LoadFileAndIndex. by rewrite Hfs, line_loop_tokens.
Qed.

Lemma LoadFileAndIndex_missing fs id filename st :
  fs filename = None →
  LoadFileAndIndex fs id filename st = Done ([WarnCannotOpen filename], st).
Proof. intros Hfs. unfold LoadFileAndIndex. by rewrite Hfs. Qed.

(** ** Counts after loading *)

Lemma lower_empty s : lower s = EmptyString ↔ s = EmptyString.
Proof. by destruct s. Qed.

Lemma occurrences_cons t token tokens :
  occurrences t (token :: tokens) =
  (if decide (lower token = t) then 1 else 0) + occurrences t tokens.
Proof.
  unfold occurrences. rewrite filter_cons.
  destruct (decide (lower token = t)); simpl length; lia.
Qed.

Lemma occurrences_bounds t tokens :
  0 ≤ occurrences t tokens ≤ Z.of_nat (length tokens).
Proof.
  unfold occurrences. pose proof (length_filter (λ token, lower token = t) tokens).
  lia.
Qed.

Lemma insert_tokens_count tokens id name st :
  table_sized (HashTable st) → no_failure (heap st) →
  Forall (λ token, token ≠ EmptyString) tokens →
  Forall (λ token, (String.length token < MAX_WORD_LEN)%nat) tokens →
  (String.length name < DOC_NAME_LEN)%nat →
  (∀ t, posting_count (HashTable st) t id + Z.of_nat (length tokens) ≤ INT_MAX) →
  ∃ st',
    insert_tokens tokens id name st = Done st'
    ∧ table_sized (HashTable st') ∧ no_failure (heap st')
    ∧ ∀ t id', posting_count (HashTable st') t id' =
        posting_count (HashTable st) t id'
        + (if decide (id' = id) then occurrences t tokens else 0).
Proof.
  intros Hsz Hh Hne Hlen Hname. revert st Hsz Hh.
  induction Hne as [|token tokens Htok _ IH]; intros st Hsz Hh Hmax.
  { exists st. simpl. repeat split; try done.
    intros t id'. destruct (decide _); unfold occurrences; simpl; lia. }
  apply Forall_cons in Hlen as [Hlen1 Hlen].
  destruct (InsertIndex_defined token id name st) as [st1 H1]; [done..| |].
  { specialize (Hmax (lower token)). simpl length in Hmax. lia. }
  destruct (InsertIndex_count _ _ _ _ _ H1 Hsz Hh) as [Hh1 Hcount1].
  pose proof (InsertIndex_sized _ _ _ _ _ Hsz H1) as Hsz1.
  destruct (IH Hlen st1 Hsz1 Hh1) as (st' & H' & Hsz' & Hh' & Hcount').
  { intros t. rewrite Hcount1. specialize (Hmax t). simpl length in Hmax.
    destruct (decide _); lia. }
  exists st'. simpl. rewrite H1. simpl. repeat split; try done.
  intros t id'. rewrite Hcount', Hcount1, occurrences_cons.
  assert (lower token ≠ EmptyString) by (by rewrite lower_empty).
  destruct (decide (id' = id)) as [->|], (decide (lower token = t)) as [<-|],
    (decide (_ ∧ _ ∧ _)) as [(?&?&?)|Hn]; try done; try lia.
  destruct Hn. done.
Qed.

Lemma LoadFileAndIndex_count fs id filename content st :
  fs filename = Some content → source_ok fs filename →
  table_sized (HashTable st) → no_failure (heap st) →
  (∀ t, posting_count (HashTable st) t id
        + Z.of_nat (length (file_tokens content)) ≤ INT_MAX) →
  ∃ st',
    LoadFileAndIndex fs id filename st = Done ([Indexing filename], st')
    ∧ table_sized (HashTable st') ∧ no_failure (heap st')
    ∧ ∀ t id', posting_count (HashTable st') t id' =
        posting_count (HashTable st) t id'
        + (if decide (id' = id) then occurrences t (file_tokens content) else 0).
Proof.
  intros Hfs Hok Hsz Hh Hmax. unfold source_ok in Hok. rewrite Hfs in Hok.
  destruct Hok as (Hname & Hlen & _).
  destruct (insert_tokens_count (file_tokens content) id filename st)
    as (st' & H' & Hrest); try done.
  { apply file_tokens_nonempty. }
  exists st'. by rewrite (LoadFileAndIndex_tokens _ _ _ content), H'.
Qed.

Lemma build_loop_count fs files i st :
  Forall (source_ok fs) files →
  table_sized (HashTable st) → no_failure (heap st) →
  (∀ t id, i < id → posting_count (HashTable st) t id = 0) →
  ∃ out st',
    build_loop fs i files st = Done (out, st')
    ∧ table_sized (HashTable st') ∧ no_failure (heap st')
    ∧ ∀ t id, posting_count (HashTable st') t id =
        posting_count (HashTable st) t id + ingested fs i files t id.
Proof.
  intros Hok. revert i st.
  induction Hok as [|f files Hf _ IH]; intros i st Hsz Hh Hzero.
  { exists [], st. simpl. repeat split; try done. intros; lia. }
  assert (∃ st1,
    LoadFileAndIndex fs (i + 1) f st = Done
      ([match fs f with Some _ => Indexing f | None => WarnCannotOpen f end], st1)
    ∧ table_sized (HashTable st1) ∧ no_failure (heap st1)
    ∧ ∀ t id, posting_count (HashTable st1) t id =
        posting_count (HashTable st) t id
        + (if decide (id = i + 1)
           then match fs f with
                | Some content => occurrences t (file_tokens content)
                | None => 0
                end
           else 0)) as (st1 & H1 & Hsz1 & Hh1 & Hcount1).
  { destruct (fs f) as [content|] eqn:Hfs.
    - apply LoadFileAndIndex_count; try done.
      intros t. rewrite Hzero by lia.
      unfold source_ok in Hf. rewrite Hfs in Hf. lia.
    - exists st. rewrite LoadFileAndIndex_missing by done.
      repeat split; try done. intros t id. destruct (decide _); lia. }
  destruct (IH (i + 1) st1 Hsz1 Hh1) as (out & st' & H' & Hsz' & Hh' & Hcount').
  { intros t id Hid. rewrite Hcount1, Hzero by lia.
    destruct (decide _); lia. }
  eexists _, st'. simpl. rewrite H1. simpl. rewrite H'. simpl.
  repeat split; try done.
  intros t id. rewrite Hcount', Hcount1. lia.
Qed.

Lemma ingested_before fs files i t id :
  id ≤ i → ingested fs i files t id = 0.
Proof.
  revert i. induction files as [|f files IH]; intros i Hid; simpl; [done|].
  rewrite IH by lia. destruct (decide _); lia.
Qed.

Lemma ingested_lookup fs files i t k f content :
  files !! k = Some f → fs f = Some content →
  ingested fs i files t (i + 1 + Z.of_nat k) = occurrences t (file_tokens content).
Proof.
  revert i k. induction files as [|f0 files IH]; intros i [|k] Hk Hfs;
    simpl in *; try done.
  - injection Hk as ->. rewrite Hfs, ingested_before by lia.
    destruct (decide _); lia.
  - replace (i + 1 + Z.of_nat (S k)) with (i + 1 + 1 + Z.of_nat k) by lia.
    rewrite (IH (i + 1) k) by done. destruct (decide _); lia.
Qed.

Lemma ingested_missing fs files i t k f :
  files !! k = Some f → fs f = None →
  ingested fs i files t (i + 1 + Z.of_nat k) = 0.
Proof.
  revert i k. induction files as [|f0 files IH]; intros i [|k] Hk Hfs;
    simpl in *; try done.
  - injection Hk as ->. rewrite Hfs, ingested_before by lia.
    destruct (decide _); lia.
  - replace (i + 1 + Z.of_nat (S k)) with (i + 1 + 1 + Z.of_nat k) by lia.
    rewrite (IH (i + 1) k) by done. destruct (decide _); lia.
Qed.

Lemma postings_empty t : postings empty_table t = None.
Proof.
  unfold postings, bucket, empty_table.
  destruct (replicate _ _ !! _) as [chain|] eqn:H; [|done].
  by apply lookup_replicate in H as [-> _].
Qed.

Lemma rows_print_docs docs out :
  rows (print_docs docs ++ out) =
  map (λ d, (doc_name d, frequency d)) docs ++ rows out.
Proof. induction docs as [|d docs IH]; simpl; congruence. Qed.

(** What [Search] reports is the posting list of the lower-cased query. *)
Lemma search_postings table query :
  (String.length query < MAX_WORD_LEN)%nat →
  search table query =
  Done match postings table (lower query) with
       | Some docs => Found (map (λ d, (doc_name d, frequency d)) docs)
       | None => NotFound
       end.
Proof.
  intros Hlen. unfold search, Search, postings, chain_docs.
  rewrite ToLowerCase_fits by done. simpl.
  destruct (find_word _ _) as [[[before p] behind]|]; [|done]. simpl.
  rewrite rows_print_docs.
  assert (rows match doc_list p with [] => [IndexAbnormal] | _ => [] end = [])
    as -> by (by destruct (doc_list p)).
  by rewrite app_nil_r.
Qed.

(** ** Names of the postings *)

Lemma docs_step_names f id name docs h docs' h' :
  docs_step id name docs h docs' h' → f id = name →
  Forall (λ d, doc_name d = f (doc_id d)) docs →
  Forall (λ d, doc_name d = f (doc_id d)) docs'.
Proof.
  destruct 1 as [before d behind h Hb Hd Hf | docs h Hall | docs h h' Hall Hm Hn];
    intros Hname Hdocs; [| done |].
  - apply Forall_app in Hdocs as [Hbefore Hrest].
    apply Forall_cons in Hrest as [Hd' Hbehind].
    apply Forall_app. split; [done|]. by constructor.
  - by constructor.
Qed.

Lemma chain_step_names f w id name chain h chain' h' :
  chain_step w id name chain h chain' h' → f id = name →
  Forall (λ p, Forall (λ d, doc_name d = f (doc_id d)) (doc_list p)) chain →
  Forall (λ p, Forall (λ d, doc_name d = f (doc_id d)) (doc_list p)) chain'.
Proof.
  destruct 1 as [before p behind h docs' h' Hb Hp Hd | chain h Hall
                | chain h h1 docs' h' Hall Hm Hd]; intros Hname Hchain; [| done |].
  - apply Forall_app in Hchain as [Hbefore Hrest].
    apply Forall_cons in Hrest as [Hp' Hbehind].
    apply Forall_app. split; [done|]. constructor; [|done]. simpl.
    by eapply docs_step_names.
  - constructor; [|done]. simpl. eapply docs_step_names; [exact Hd|done|].
    constructor.
Qed.

Lemma InsertIndex_names f raw id name st st' :
  names_ok f (HashTable st) → f id = name →
  InsertIndex raw id name st = Done st' → names_ok f (HashTable st').
Proof.
  intros Hok Hname [_ [[_ ->]|(_ & chain' & Hstep & ->)]]%InsertIndex_Done;
    [done|].
  apply Forall_insert; [done|].
  eapply chain_step_names; [exact Hstep|done|].
  unfold bucket. destruct (HashTable st !! _) as [chain|] eqn:H; simpl.
  - by eapply Forall_lookup_1 in Hok.
  - constructor.
Qed.

Lemma insert_tokens_names f tokens id name st st' :
  names_ok f (HashTable st) → f id = name →
  insert_tokens tokens id name st = Done st' → names_ok f (HashTable st').
Proof.
  intros Hok Hname. revert st Hok.
  induction tokens as [|token tokens IH]; intros st Hok; simpl.
  - by intros [= <-].
  - destruct (InsertIndex token id name st) as [st1|] eqn:H1; simpl; [|done].
    apply IH. by eapply InsertIndex_names.
Qed.

Lemma build_loop_names f fs i files st out st' :
  (∀ k file, files !! k = Some file → f (i + 1 + Z.of_nat k) = file) →
  names_ok f (HashTable st) →
  build_loop fs i files st = Done (out, st') → names_ok f (HashTable st').
Proof.
  revert i st out. induction files as [|file files IH]; intros i st out Hf Hok;
    simpl.
  - by intros [= _ <-].
  - destruct (LoadFileAndIndex fs (i + 1) file st) as [[out1 st1]|] eqn:H1;
      simpl; [|done].
    destruct (build_loop fs (i + 1) files st1) as [[out2 st2]|] eqn:H2;
      simpl; [|done].
    intros [= _ <-]. eapply (IH (i + 1)); [| |exact H2].
    + intros k file' Hk. rewrite <- (Hf (S k) file' Hk). f_equal. lia.
    + destruct (fs file) as [content|] eqn:Hfs.
      * rewrite (LoadFileAndIndex_tokens _ _ _ content) in H1 by done.
        destruct (insert_tokens _ _ _ st) as [st1'|] eqn:Hins; [|done].
        injection H1 as _ <-.
        eapply insert_tokens_names; [exact Hok| |exact Hins].
        rewrite <- (Hf 0%nat file eq_refl). f_equal. lia.
      * rewrite LoadFileAndIndex_missing in H1 by done.
        by injection H1 as _ <-.
Qed.

Lemma name_of_lookup files k file :
  files !! k = Some file → name_of files (0 + 1 + Z.of_nat k) = file.
Proof.
  intros Hk. unfold name_of.
  replace (Z.to_nat (0 + 1 + Z.of_nat k - 1)) with k by lia. by rewrite Hk.
Qed.

Lemma empty_table_names f : names_ok f empty_table.
Proof. apply Forall_replicate. constructor. Qed.

(** A count that is not 0 is a row of the answer to the query. *)
Lemma search_row f table query id :
  (String.length query < MAX_WORD_LEN)%nat →
  names_ok f table →
  posting_count table (lower query) id ≠ 0 →
  ∃ found,
    search table query = Done (Found found)
    ∧ (f id, posting_count table (lower query) id) ∈ found.
Proof.
  intros Hlen Hok Hcount. rewrite search_postings by done.
  unfold posting_count in *.
  destruct (postings table (lower query)) as [docs|] eqn:Hp; [|done].
  simpl in *. eexists. split; [done|].
  unfold count_in in *.
  destruct (find_doc id docs) as [[[before d] behind]|] eqn:Hd; [|done].
  apply find_doc_Some in Hd as (-> & Hid & _).
  assert (doc_name d = f (doc_id d)) as Hname.
  { unfold postings, chain_docs in Hp.
    destruct (find_word _ _) as [[[b p] c]|] eqn:Hfind; [|done].
    injection Hp as Hp. apply find_word_Some in Hfind as (Hchain & _ & _).
    unfold bucket in Hchain.
    destruct (table !! _) as [chain|] eqn:Hlook; simpl in Hchain; [|by destruct b].
    eapply Forall_lookup_1 in Hok; [|exact Hlook]. rewrite Hchain in Hok.
    apply Forall_app in Hok as [_ [Hpd _]%Forall_cons]. rewrite Hp in Hpd.
    by apply Forall_app in Hpd as [_ [? _]%Forall_cons]. }
  rewrite <- Hid, <- Hname. apply list_elem_of_fmap.
  exists d. split; [done|]. apply elem_of_app. right. by apply elem_of_cons; left.
Qed.

Lemma occurrences_pos token tokens :
  token ∈ tokens → 0 < occurrences (lower token) tokens.
Proof.
  intros Hin. unfold occurrences.
  assert (token ∈ filter (λ x, lower x = lower token) tokens) as Hf
    by (by apply list_elem_of_filter).
  destruct (filter _ tokens); [by apply elem_of_nil in Hf|simpl; lia].
Qed.

(** The loop of [main] on the cleared table: it runs to its end, the counts
    are those of the files, and every token of a file is found again with
    the name of the file and its count. *)
Lemma build_loop_correct fs files h :
  no_failure h → Forall (source_ok fs) files →
  ∃ out st',
    build_loop fs 0 files (init h) = Done (out, st')
    ∧ (∀ t id, posting_count (HashTable st') t id = ingested fs 0 files t id)
    ∧ (∀ k f content token,
         files !! k = Some f → fs f = Some content →
         token ∈ file_tokens content →
         ∃ found,
           search (HashTable st') token = Done (Found found)
           ∧ (f, occurrences (lower token) (file_tokens content)) ∈ found).
Proof.
  intros Hh Hok.
  destruct (build_loop_count fs files 0 (init h) Hok empty_table_sized Hh)
    as (out & st' & H' & _ & _ & Hcount).
  { intros t id _. unfold posting_count. simpl. by rewrite postings_empty. }
  assert (∀ t id, posting_count (HashTable st') t id = ingested fs 0 files t id)
    as Hcount'.
  { intros t id. rewrite Hcount. unfold posting_count at 1. simpl.
    by rewrite postings_empty. }
  exists out, st'. split; [done|]. split; [done|].
  intros k f content token Hk Hfs Htoken.
  pose proof (build_loop_names (name_of files) fs 0 files (init h) out st'
                (name_of_lookup files) (empty_table_names _) H') as Hnames.
  pose proof (occurrences_pos _ _ Htoken) as Hpos.
  eapply Forall_lookup_1 in Hok; [|exact Hk].
  unfold source_ok in Hok. rewrite Hfs in Hok. destruct Hok as (_ & Hlen & _).
  eapply Forall_forall in Hlen; [|exact Htoken].
  destruct (search_row (name_of files) (HashTable st') token (0 + 1 + Z.of_nat k))
    as (found & Hs & Hrow); try done.
  { rewrite Hcount', (ingested_lookup _ _ _ _ _ f content) by done. lia. }
  exists found. split; [done|].
  by rewrite (name_of_lookup files k f Hk), Hcount',
    (ingested_lookup _ _ _ _ _ f content) in Hrow.
Qed.

(** ** Count correctness *)

(** C1.  After [main]'s loop has loaded a list of files into the cleared
    table, the count stored for a term [t] under the number of a file is
    the number of tokens of that file whose lower-cased form is [t], and a
    query for a token of the file finds the file's name with that count;
    the loop runs to its end when no allocation fails and every file keeps
    within the buffers.  Scenario A: with "the cat sat on the mat" loaded
    from doc.txt as document 1, the query "the" finds (doc.txt, 2), "cat"
    finds (doc.txt, 1) and "dog" finds nothing. *)
Theorem count_correctness :
  (∀ fs files h,
     no_failure h → Forall (source_ok fs) files →
     ∃ out st',
       build_loop fs 0 files (init h) = Done (out, st')
       ∧ ∀ k f content,
           files !! k = Some f → fs f = Some content →
           (∀ t, posting_count (HashTable st') t (Z.of_nat k + 1)
                 = occurrences t (file_tokens content))
           ∧ (∀ token,
                token ∈ file_tokens content →
                ∃ found,
                  search (HashTable st') token = Done (Found found)
                  ∧ (f, occurrences (lower token) (file_tokens content))
                    ∈ found))
  ∧ (∃ st,
       LoadFileAndIndex (fs_of [("doc.txt", "the cat sat on the mat")]) 1
         "doc.txt" (init []) = Done ([Indexing "doc.txt"], st)
       ∧ search (HashTable st) "the" = Done (Found [("doc.txt", 2)])
       ∧ search (HashTable st) "cat" = Done (Found [("doc.txt", 1)])
       ∧ search (HashTable st) "dog" = Done NotFound).
Proof.
  split.
  - intros fs files h Hh Hok.
    destruct (build_loop_correct fs files h Hh Hok)
      as (out & st' & H' & Hcount & Hsearch).
    exists out, st'. split; [done|]. intros k f content Hk Hfs. split.
    + intros t. rewrite Hcount.
      replace (Z.of_nat k + 1) with (0 + 1 + Z.of_nat k) by lia.
      by rewrite (ingested_lookup _ _ _ _ _ f content).
    + intros token Htoken. by apply (Hsearch k).
  - eexists. split; [vm_compute; reflexivity|].
    split; [|split]; vm_compute; reflexivity.
Qed.

Lemma count_correctness_witness :
  ∃ out st',
    build_loop (fs_of [("doc.txt", "the cat sat on the mat")]) 0 ["doc.txt"]
      (init []) = Done (out, st')
    ∧ posting_count (HashTable st') "the" 1 = 2.
Proof.
  destruct (proj1 count_correctness
              (fs_of [("doc.txt", "the cat sat on the mat")]) ["doc.txt"] [])
    as (out & st' & Hrun & Hcount).
  - constructor.
  - constructor; [|constructor]. unfold source_ok. simpl.
    split; [vm_compute; lia|]. split; [|vm_compute; discriminate].
    vm_compute. repeat constructor.
  - exists out, st'. split; [exact Hrun|].
    exact (proj1 (Hcount 0%nat "doc.txt" "the cat sat on the mat"
                    eq_refl eq_refl) "the").
Defined.

(** ** Loading a file again *)

(** C6.  Loading the same file twice under the same document number adds
    the counts up: after the second pass every term stands at twice its
    number of occurrences in the file.  Scenario C: "a a a" loaded twice
    as document 1 makes the query "a" find the count 6. *)
Theorem reload_accumulates :
  (∀ fs id filename content h,
     fs filename = Some content → no_failure h → source_ok fs filename →
     2 * Z.of_nat (length (file_tokens content)) ≤ INT_MAX →
     ∃ st1 st2,
       LoadFileAndIndex fs id filename (init h) = Done ([Indexing filename], st1)
       ∧ LoadFileAndIndex fs id filename st1 = Done ([Indexing filename], st2)
       ∧ ∀ t, posting_count (HashTable st1) t id
              = occurrences t (file_tokens content)
            ∧ posting_count (HashTable st2) t id
              = occurrences t (file_tokens content)
                + occurrences t (file_tokens content))
  ∧ (∃ st1 st2,
       LoadFileAndIndex (fs_of [("src.txt", "a a a")]) 1 "src.txt" (init [])
         = Done ([Indexing "src.txt"], st1)
       ∧ LoadFileAndIndex (fs_of [("src.txt", "a a a")]) 1 "src.txt" st1
         = Done ([Indexing "src.txt"], st2)
       ∧ search (HashTable st2) "a" = Done (Found [("src.txt", 6)])).
Proof.
  split.
  - intros fs id filename content h Hfs Hh Hok Hmax.
    assert (∀ t, posting_count (HashTable (init h)) t id = 0) as Hzero.
    { intros t. unfold posting_count. simpl. by rewrite postings_empty. }
    destruct (LoadFileAndIndex_count fs id filename content (init h)
                Hfs Hok empty_table_sized Hh)
      as (st1 & H1 & Hsz1 & Hh1 & Hcount1).
    { intros t. rewrite Hzero. lia. }
    destruct (LoadFileAndIndex_count fs id filename content st1
                Hfs Hok Hsz1 Hh1)
      as (st2 & H2 & _ & _ & Hcount2).
    { intros t. rewrite Hcount1, Hzero.
      pose proof (occurrences_bounds t (file_tokens content)).
      destruct (decide _); lia. }
    exists st1, st2. repeat split; try done.
    + rewrite Hcount1, Hzero. destruct (decide _); [lia|done].
    + rewrite Hcount2, Hcount1, Hzero. destruct (decide _); [lia|done].
  - do 2 eexists. split; [vm_compute; reflexivity|].
    split; vm_compute; reflexivity.
Qed.

Lemma reload_accumulates_witness :
  ∃ st1 st2,
    LoadFileAndIndex (fs_of [("src.txt", "a a a")]) 7 "src.txt" (init [])
      = Done ([Indexing "src.txt"], st1)
    ∧ LoadFileAndIndex (fs_of [("src.txt", "a a a")]) 7 "src.txt" st1
      = Done ([Indexing "src.txt"], st2)
    ∧ posting_count (HashTable st2) "a" 7 = 6.
Proof.
  destruct (proj1 reload_accumulates
              (fs_of [("src.txt", "a a a")]) 7 "src.txt" "a a a" [])
    as (st1 & st2 & H1 & H2 & Hcount).
  - reflexivity.
  - constructor.
  - unfold source_ok. simpl.
    split; [vm_compute; lia|]. split; [|vm_compute; discriminate].
    vm_compute. repeat constructor.
  - vm_compute. discriminate.
  - exists st1, st2. split; [exact H1|]. split; [exact H2|].
    exact (proj2 (Hcount "a")).
Defined.

(** ** A file that cannot be opened *)

Lemma build_loop_app fs i files1 files2 st :
  build_loop fs i (files1 ++ files2) st =
  (r ←! build_loop fs i files1 st;
   r' ←! build_loop fs (i + Z.of_nat (length files1)) files2 r.2;
   Done (r.1 ++ r'.1, r'.2)).
Proof.
  revert i st. induction files1 as [|f files1 IH]; intros i st.
  - simpl. rewrite Z.add_0_r.
    destruct (build_loop fs i files2 st) as [[??]|]; done.
  - cbn [app build_loop length].
    destruct (LoadFileAndIndex fs (i + 1) f st) as [[out1 st1]|]; [|done].
    simpl. rewrite IH.
    replace (i + 1 + Z.of_nat (length files1))
      with (i + Z.of_nat (S (length files1))) by lia.
    destruct (build_loop fs (i + 1) files1 st1) as [[out2 st2]|]; [|done].
    simpl.
    destruct (build_loop fs _ files2 st2) as [[out3 st3]|]; [|done].
    simpl. by rewrite app_assoc.
Qed.

(** C7.  A file that cannot be opened makes [LoadFileAndIndex] print its
    warning and return with the table as it was.  The loop of [main] goes
    on: it does to the files behind the missing one what it would have done
    to them at their place in the list without it, and, when no allocation
    fails and the files keep within the buffers, it runs to its end with
    nothing counted for the missing file, every other file counted in full
    and every token of the other files found by a query. *)
Theorem missing_file_is_skipped :
  (∀ fs id filename st,
     fs filename = None →
     LoadFileAndIndex fs id filename st = Done ([WarnCannotOpen filename], st))
  ∧ (∀ fs i before filename behind st,
       fs filename = None →
       build_loop fs i (before ++ filename :: behind) st =
       (r ←! build_loop fs i before st;
        r' ←! build_loop fs (i + Z.of_nat (length before) + 1) behind r.2;
        Done (r.1 ++ WarnCannotOpen filename :: r'.1, r'.2)))
  ∧ (∀ fs files h k filename,
       files !! k = Some filename → fs filename = None →
       no_failure h → Forall (source_ok fs) files →
       ∃ out st',
         build_loop fs 0 files (init h) = Done (out, st')
         ∧ (∀ t, posting_count (HashTable st') t (Z.of_nat k + 1) = 0)
         ∧ ∀ k' f content,
             files !! k' = Some f → fs f = Some content →
             (∀ t, posting_count (HashTable st') t (Z.of_nat k' + 1)
                   = occurrences t (file_tokens content))
             ∧ (∀ token,
                  token ∈ file_tokens content →
                  ∃ found,
                    search (HashTable st') token = Done (Found found)
                    ∧ (f, occurrences (lower token) (file_tokens content))
                      ∈ found)).
Proof.
  split; [|split].
  - intros. by apply LoadFileAndIndex_missing.
  - intros fs i before filename behind st Hfs. rewrite build_loop_app.
    destruct (build_loop fs i before st) as [[out1 st1]|]; [|done]. simpl.
    rewrite LoadFileAndIndex_missing by done. simpl.
    destruct (build_loop fs _ behind st1) as [[out2 st2]|]; done.
  - intros fs files h k filename Hk Hfs Hh Hok.
    destruct (build_loop_correct fs files h Hh Hok)
      as (out & st' & H' & Hcount & Hsearch).
    exists out, st'. split; [done|]. split.
    + intros t. rewrite Hcount.
      replace (Z.of_nat k + 1) with (0 + 1 + Z.of_nat k) by lia.
      by rewrite (ingested_missing _ _ _ _ _ filename).
    + intros k' f content Hk' Hfs'. split.
      * intros t. rewrite Hcount.
        replace (Z.of_nat k' + 1) with (0 + 1 + Z.of_nat k') by lia.
        by rewrite (ingested_lookup _ _ _ _ _ f content).
      * intros token Htoken. by apply (Hsearch k').
Qed.

Lemma missing_file_is_skipped_witness :
  ∃ out st',
    build_loop (fs_of [("a.txt", "the fox"); ("c.txt", "the hound")]) 0
      ["a.txt"; "b.txt"; "c.txt"] (init []) = Done (out, st')
    ∧ posting_count (HashTable st') "the" 2 = 0
    ∧ posting_count (HashTable st') "hound" 3 = 1.
Proof.
  destruct (proj2 (proj2 missing_file_is_skipped)
              (fs_of [("a.txt", "the fox"); ("c.txt", "the hound")])
              ["a.txt"; "b.txt"; "c.txt"] [] 1%nat "b.txt")
    as (out & st' & Hrun & Hnone & Hcount).
  - reflexivity.
  - reflexivity.
  - constructor.
  - repeat constructor; unfold source_ok; simpl; try done;
      (split; [vm_compute; lia|]; split; [|vm_compute; discriminate]);
      vm_compute; repeat constructor.
  - exists out, st'. split; [exact Hrun|]. split; [exact (Hnone "the")|].
    exact (proj1 (Hcount 2%nat "c.txt" "the hound" eq_refl eq_refl) "hound").
Defined.

(** ** The words of the table *)

Lemma elem_of_concat {A : Type} (x : A) (ls : list (list A)) :
  x ∈ concat ls ↔ ∃ l, x ∈ l ∧ l ∈ ls.
Proof.
  induction ls as [|l0 ls IH]; simpl.
  - split; [by intros ?%elem_of_nil|]. by intros (l & _ & ?%elem_of_nil).
  - rewrite elem_of_app, IH. split.
    + intros [Hx|(l & Hx & Hl)].
      * exists l0. split; [done|]. by apply elem_of_cons; left.
      * exists l. split; [done|]. by apply elem_of_cons; right.
    + intros (l & Hx & [->|Hl]%elem_of_cons); [by left|].
      right. by exists l.
Qed.

Lemma elem_of_table_words t table :
  t ∈ table_words table ↔
  ∃ i chain, table !! i = Some chain ∧ t ∈ word <$> chain.
Proof.
  unfold table_words. rewrite list_elem_of_fmap. split.
  - intros (n & -> & (chain & Hn & Hchain)%elem_of_concat).
    apply list_elem_of_lookup in Hchain as [i Hi].
    exists i, chain. split; [done|]. by apply list_elem_of_fmap_2.
  - intros (i & chain & Hi & (n & -> & Hn)%list_elem_of_fmap).
    exists n. split; [done|]. apply elem_of_concat.
    exists chain. split; [done|]. by eapply list_elem_of_lookup_2.
Qed.

Lemma bucket_words t table idx :
  t ∈ word <$> bucket table idx → t ∈ table_words table.
Proof.
  unfold bucket. intros Ht. apply elem_of_table_words.
  destruct (table !! idx) as [chain|] eqn:H; simpl in Ht.
  - by exists idx, chain.
  - by apply elem_of_nil in Ht.
Qed.

(** A call adds no word but the lower-cased token. *)
Lemma InsertIndex_words raw id name st st' t :
  InsertIndex raw id name st = Done st' →
  t ∈ table_words (HashTable st') →
  t = lower raw ∨ t ∈ table_words (HashTable st).
Proof.
  intros [_ [[_ ->]|(_ & chain' & Hstep & ->)]]%InsertIndex_Done; [by right|].
  intros (i & chain & Hi & Ht)%elem_of_table_words.
  destruct (decide (i = Z.to_nat (HashFunction (lower raw)))) as [->|Hne].
  - apply list_lookup_insert_Some in Hi as [(_ & <- & _)|[? _]]; [|done].
    destruct (chain_step_words _ _ _ _ _ _ _ Hstep) as [Hw|[Hw _]];
      rewrite Hw in Ht.
    + right. by eapply bucket_words.
    + apply elem_of_cons in Ht as [->|Ht]; [by left|].
      right. by eapply bucket_words.
  - rewrite list_lookup_insert_ne in Hi by done.
    right. apply elem_of_table_words. by exists i, chain.
Qed.

Lemma insert_tokens_words tokens id name st st' t :
  insert_tokens tokens id name st = Done st' →
  t ∈ table_words (HashTable st') →
  t ∈ lower <$> tokens ∨ t ∈ table_words (HashTable st).
Proof.
  revert st. induction tokens as [|token tokens IH]; intros st; simpl.
  - intros [= <-]. by right.
  - destruct (InsertIndex token id name st) as [st1|] eqn:H1; simpl; [|done].
    intros H' Ht. destruct (IH _ H' Ht) as [Hin|Hin].
    + left. by apply elem_of_cons; right.
    + destruct (InsertIndex_words _ _ _ _ _ _ H1 Hin) as [->|Hold].
      * left. by apply elem_of_cons; left.
      * by right.
Qed.

Lemma build_loop_words fs i files st out st' t :
  build_loop fs i files st = Done (out, st') →
  t ∈ table_words (HashTable st') →
  (∃ f content, f ∈ files ∧ fs f = Some content
                ∧ t ∈ lower <$> file_tokens content)
  ∨ t ∈ table_words (HashTable st).
Proof.
  revert i st out. induction files as [|f files IH]; intros i st out; simpl.
  - intros [= <- <-]. by right.
  - destruct (LoadFileAndIndex fs (i + 1) f st) as [[out1 st1]|] eqn:H1;
      simpl; [|done].
    destruct (build_loop fs (i + 1) files st1) as [[out2 st2]|] eqn:H2;
      simpl; [|done].
    intros [= <- <-] Ht.
    destruct (IH _ _ _ H2 Ht) as [(f' & content & Hf' & Hfs & Hin)|Hin].
    { left. exists f', content. split; [by apply elem_of_cons; right|done]. }
    destruct (fs f) as [content|] eqn:Hfs.
    + rewrite (LoadFileAndIndex_tokens _ _ _ content) in H1 by done.
      destruct (insert_tokens _ _ _ st) as [st1'|] eqn:Hins; [|done].
      injection H1 as _ <-.
      destruct (insert_tokens_words _ _ _ _ _ _ Hins Hin) as [Htok|Hold];
        [|by right].
      left. exists f, content. split; [by apply elem_of_cons; left|done].
    + rewrite LoadFileAndIndex_missing in H1 by done.
      injection H1 as _ <-. by right.
Qed.

Lemma table_words_empty : table_words empty_table = [].
Proof.
  unfold table_words, empty_table.
  induction (Z.to_nat TABLE_SIZE) as [|n IH]; simpl; [done|exact IH].
Qed.

Lemma postings_Some_words table t docs :
  postings table t = Some docs → t ∈ table_words table.
Proof.
  unfold postings, chain_docs.
  destruct (find_word _ _) as [[[before p] behind]|] eqn:Hfind; [|done].
  apply find_word_Some in Hfind as (Hchain & Hp & _). intros _.
  eapply bucket_words. rewrite Hchain, fmap_app, fmap_cons, Hp.
  apply elem_of_app. right. by apply elem_of_cons; left.
Qed.

(** C5.  A query whose lower-cased form was produced by none of the files
    loaded by the loop of [main] is answered with [NotFound], whatever
    allocations failed on the way; so is every query on the cleared table;
    and [Found] is reported only for a term that a word node of the table
    holds. *)
Theorem absent_term_not_found :
  (∀ fs i files h out st' query,
     build_loop fs i files (init h) = Done (out, st') →
     (String.length query < MAX_WORD_LEN)%nat →
     (∀ f content, f ∈ files → fs f = Some content →
                   lower query ∉ lower <$> file_tokens content) →
     search (HashTable st') query = Done NotFound)
  ∧ (∀ query,
       (String.length query < MAX_WORD_LEN)%nat →
       search empty_table query = Done NotFound)
  ∧ (∀ table query postings,
       search table query = Done (Found postings) →
       ToLowerCase MAX_WORD_LEN query = Done (lower query)
       ∧ lower query ∈ table_words table).
Proof.
  split; [|split].
  - intros fs i files h out st' query Hrun Hlen Hnew.
    rewrite search_postings by done.
    destruct (postings (HashTable st') (lower query)) as [docs|] eqn:Hp; [|done].
    apply postings_Some_words in Hp.
    destruct (build_loop_words _ _ _ _ _ _ _ Hrun Hp)
      as [(f & content & Hf & Hfs & Hin)|Hin].
    + by destruct (Hnew f content).
    + simpl in Hin. rewrite table_words_empty in Hin.
      by apply elem_of_nil in Hin.
  - intros query Hlen. rewrite search_postings by done.
    by rewrite postings_empty.
  - intros table query rows_found Hs.
    destruct (Nat.lt_ge_cases (String.length query) MAX_WORD_LEN) as [Hlen|Hge].
    + split; [by apply ToLowerCase_fits|].
      rewrite search_postings in Hs by done.
      destruct (postings table (lower query)) as [docs|] eqn:Hp; [|done].
      by eapply postings_Some_words.
    + unfold search, Search in Hs.
      by rewrite ToLowerCase_overflow in Hs.
Qed.

Lemma absent_term_not_found_witness :
  ∃ out st',
    build_loop (fs_of [("a.txt", "the fox")]) 0 ["a.txt"; "b.txt"]
      (init [true; false]) = Done (out, st')
    ∧ search (HashTable st') "Hound" = Done NotFound.
Proof.
  do 2 eexists. split.
  - vm_compute. reflexivity.
  - eapply (proj1 absent_term_not_found
              (fs_of [("a.txt", "the fox")]) 0 ["a.txt"; "b.txt"] [true; false]).
    + vm_compute. reflexivity.
    + vm_compute. lia.
    + intros f content Hf Hfs Hin.
      apply elem_of_cons in Hf as [->|Hf].
      * vm_compute in Hfs. injection Hfs as <-. vm_compute in Hin.
        repeat (apply elem_of_cons in Hin as [Hin|Hin]; [discriminate|]).
        by apply elem_of_nil in Hin.
      * apply elem_of_cons in Hf as [->|Hf]; [discriminate|].
        by apply elem_of_nil in Hf.
Defined.

(** ** Case of the query *)

(** C3.  On every table, a query and any variant of it that differs only
    in the case of letters get the same answer from [Search]: both are
    lower-cased by [ToLowerCase], as the tokens were, before the lookup. *)
Theorem search_ignores_case table query query' :
  case_variant query query' = true →
  search table query = search table query'.
Proof.
  intros Hcase. unfold search, Search.
  rewrite (case_variant_ToLowerCase _ _ _ Hcase).
  destruct (ToLowerCase MAX_WORD_LEN query') as [w|]; simpl; [|done].
  by destruct (find_word _ _) as [[[before p] behind]|].
Qed.

Lemma search_ignores_case_witness :
  ∃ st,
    LoadFileAndIndex (fs_of [("doc.txt", "Hello, world!")]) 1 "doc.txt"
      (init []) = Done ([Indexing "doc.txt"], st)
    ∧ search (HashTable st) "Hello" = search (HashTable st) "hello"
    ∧ search (HashTable st) "hello" = Done (Found [("doc.txt", 1)]).
Proof.
  eexists. split; [vm_compute; reflexivity|]. split.
  - apply (search_ignores_case _ "Hello" "hello"). reflexivity.
  - vm_compute. reflexivity.
Defined.

(** ** Failing allocations *)

(** The claim that a failed allocation is reported does not hold: with the
    allocation of the word node failing, the call for "cat" returns like any
    other call, the table still cleared. *)
Lemma failed_allocation_is_silent :
  InsertIndex "cat" 1 "doc.txt" (init [false]) = Done (init [])
  ∧ search (HashTable (init [])) "cat" = Done NotFound.
Proof. split; vm_compute; reflexivity. Qed.

(** C4, as the code has it.  When the first allocation a call attempts
    fails (the node of a new word, or the posting of a word that has its
    node), [InsertIndex] returns to its caller as after any other call and
    the table is what it was: the occurrence is dropped and nothing tells
    the caller. *)
Theorem failed_allocation_discards raw id name w st h :
  ToLowerCase MAX_WORD_LEN raw = Done w →
  w ≠ EmptyString →
  needs_allocation w id (bucket (HashTable st) (Z.to_nat (HashFunction w))) = true →
  heap st = false :: h →
  InsertIndex raw id name st = Done {| HashTable := HashTable st; heap := h |}.
Proof.
  intros Hw Hne Hneeds Hheap. unfold InsertIndex. rewrite Hw. simpl.
  destruct (Nat.eqb_spec (String.length w) 0) as [Hz|_]; [by destruct w|].
  unfold find_or_create, needs_allocation in *. rewrite Hheap.
  destruct (find_word w _) as [[[before p] behind]|] eqn:Hfind; simpl; [|done].
  unfold record_occurrence.
  destruct (find_doc id (doc_list p)) as [[[b d] c]|]; [done|]. simpl.
  f_equal. f_equal.
  apply find_word_Some in Hfind as (Hchain & _ & _).
  destruct p as [pw pdocs]; simpl. rewrite <- Hchain. apply insert_bucket.
Qed.

Lemma failed_allocation_discards_witness :
  InsertIndex "Cat" 1 "doc.txt" (init [false; true])
  = Done {| HashTable := HashTable (init [false; true]); heap := [true] |}.
Proof.
  apply (failed_allocation_discards "Cat" 1 "doc.txt" "cat"
           (init [false; true]) [true]).
  - reflexivity.
  - discriminate.
  - reflexivity.
  - reflexivity.
Defined.

(** When the node of a new word is allocated and the allocation of its
    posting fails, the node stays in the chain without a posting, and
    [Search] reports the state it calls abnormal. *)
Example failed_posting_leaves_word :
  ∃ st,
    InsertIndex "cat" 1 "doc.txt" (init [true; false]) = Done st
    ∧ postings (HashTable st) "cat" = Some []
    ∧ Search (HashTable st) "cat" = Done [ResultHeader "cat"; IndexAbnormal].
Proof.
  eexists. split; [vm_compute; reflexivity|].
  split; vm_compute; reflexivity.
Qed.

(** ** Tokens longer than the buffer *)

Lemma InsertIndex_overflow raw id name st :
  (MAX_WORD_LEN ≤ String.length raw)%nat →
  InsertIndex raw id name st = Undefined BufferOverflow.
Proof.
  intros Hlen. unfold InsertIndex. by rewrite ToLowerCase_overflow.
Qed.

(** C9 fails on the code.  [ToLowerCase] neither rejects nor cuts a token
    that does not fit the 50 bytes of [word]: for a token of 50 characters,
    as a line of a file can hold, the terminator is stored behind the end of
    the array, and so [InsertIndex] and [LoadFileAndIndex] leave defined
    behaviour. *)
Theorem long_token_overflows :
  String.length long_token = MAX_WORD_LEN
  ∧ file_tokens ("see " +:+ long_token) = ["see"; long_token]
  ∧ ToLowerCase MAX_WORD_LEN long_token = Undefined BufferOverflow
  ∧ InsertIndex long_token 1 "doc.txt" (init []) = Undefined BufferOverflow
  ∧ LoadFileAndIndex (fs_of [("doc.txt", "see " +:+ long_token)]) 1 "doc.txt"
      (init []) = Undefined BufferOverflow.
Proof. repeat split; vm_compute; reflexivity. Qed.

(** ** Examples *)

(** Scenario B: "the" of two files has one posting for each. *)
Example scenario_B :
  ∃ out st,
    build_loop (fs_of [("one.txt", "the fox"); ("two.txt", "the hound")]) 0
      ["one.txt"; "two.txt"] (init []) = Done (out, st)
    ∧ search (HashTable st) "the" = Done (Found [("two.txt", 1); ("one.txt", 1)]).
Proof. do 2 eexists. split; vm_compute; reflexivity. Qed.

(** Two words of one bucket: "bs" and "cat" both hash to 869. *)
Example collision : HashFunction "bs" = 869 ∧ HashFunction "cat" = 869.
Proof. split; reflexivity. Qed.

Lemma InsertIndex_frame_witness :
  HashTable (state_of (InsertIndex "Cat" 1 "doc.txt"
                         (state_of (InsertIndex "bs" 2 "b.txt" (init []))))) !! 471%nat
  = HashTable (state_of (InsertIndex "bs" 2 "b.txt" (init []))) !! 471%nat
  ∧ other_words "cat"
      (bucket (HashTable (state_of (InsertIndex "Cat" 1 "doc.txt"
                 (state_of (InsertIndex "bs" 2 "b.txt" (init [])))))) 869)
    = [{| word := "bs";
          doc_list := [{| doc_id := 2; doc_name := "b.txt"; frequency := 1 |}] |}].
Proof.
  destruct (InsertIndex_frame "Cat" 1 "doc.txt" "cat"
              (state_of (InsertIndex "bs" 2 "b.txt" (init [])))
              (state_of (InsertIndex "Cat" 1 "doc.txt"
                           (state_of (InsertIndex "bs" 2 "b.txt" (init []))))))
    as [Hslots Hwords].
  - reflexivity.
  - vm_compute. reflexivity.
  - split.
    + apply Hslots. vm_compute. lia.
    + rewrite Hwords. vm_compute. reflexivity.
Defined.

(** [main] with none of its four files on the disk: four warnings, and the
    table stays cleared. *)
Example main_without_files :
  build_loop (fs_of []) 0 files (init []) =
  Done ([WarnCannotOpen "source_1.txt"; WarnCannotOpen "source_2.txt";
         WarnCannotOpen "requirements.txt"; WarnCannotOpen "test.txt"],
        init []).
Proof. reflexivity. Qed.

(** The tokens of a text of two lines, as [strtok] cuts them. *)
Example file_tokens_example :
  file_tokens
    (String.append "Hello, world! (a[b]c)"
       (String LF "second  line.")) =
  ["Hello"; "world"; "a"; "b"; "c"; "second"; "line"].
Proof. reflexivity. Qed.

(** [fgets] stops behind the line feed, or when the buffer is full. *)
Example fgets_example :
  fgets 1024 (String.append "ab" (String LF "cd")) = Some (String.append "ab" (String LF ""), "cd")
  ∧ fgets 4 "abcdef" = Some ("abc", "def")
  ∧ fgets 1024 "" = None.
Proof. repeat split; vm_compute; reflexivity. Qed.

Example HashFunction_example : HashFunction "the" = 471.
Proof. reflexivity. Qed.

Example ToLowerCase_example :
  ToLowerCase MAX_WORD_LEN "Hello-World_42" = Done "hello-world_42".
Proof. reflexivity. Qed.

(** * Further properties of the code *)

(** ** Lower-casing and insertion *)

Lemma tolower_idempotent c : tolower (tolower c) = tolower c.
Proof.
  unfold tolower.
  destruct ((65 <=? nat_of_ascii c) && (nat_of_ascii c <=? 90))%nat eqn:Hup.
  - apply andb_true_iff in Hup as [?%Nat.leb_le ?%Nat.leb_le].
    rewrite nat_ascii_embedding by lia.
    destruct (Nat.leb_spec (nat_of_ascii c + 32) 90); [lia|].
    by rewrite andb_false_r.
  - by rewrite Hup.
Qed.

Lemma lower_idempotent s : lower (lower s) = lower s.
Proof.
  induction s as [|c s IH]; simpl; [done|].
  by rewrite tolower_idempotent, IH.
Qed.

(** X1.  What [ToLowerCase] leaves in the buffer is a fixed point: lower-casing
    it again into a buffer of the same size gives the same string. *)
Theorem ToLowerCase_idempotent size src w :
  ToLowerCase size src = Done w → ToLowerCase size w = Done w.
Proof.
  intros [-> Hlen]%ToLowerCase_Done.
  rewrite ToLowerCase_fits by (by rewrite lower_length).
  by rewrite lower_idempotent.
Qed.

Lemma ToLowerCase_idempotent_witness :
  ToLowerCase MAX_WORD_LEN "hello-world" = Done "hello-world".
Proof.
  apply (ToLowerCase_idempotent MAX_WORD_LEN "Hello-WORLD" "hello-world").
  reflexivity.
Defined.

(** X2.  [InsertIndex] takes a token only through its lower-cased form: two
    tokens that differ in the case of letters have the same effect, in every
    state, down to the undefined cases. *)
Theorem InsertIndex_ignores_case raw raw' id name st :
  case_variant raw raw' = true →
  InsertIndex raw id name st = InsertIndex raw' id name st.
Proof.
  intros Hcase. unfold InsertIndex.
  by rewrite (case_variant_ToLowerCase _ _ _ Hcase).
Qed.

Lemma InsertIndex_ignores_case_witness :
  InsertIndex "Cat" 1 "doc.txt" (init []) = InsertIndex "cAT" 1 "doc.txt" (init []).
Proof.
  apply (InsertIndex_ignores_case "Cat" "cAT" 1 "doc.txt" (init [])).
  reflexivity.
Defined.

(** X3.  A call that returns, in a table of full size and with no failing
    allocation ahead, adds exactly one to the count of its lower-cased word
    for its document and leaves every other count of the table alone. *)
Theorem InsertIndex_counts_once raw id name st st' :
  InsertIndex raw id name st = Done st' →
  table_sized (HashTable st) → no_failure (heap st) →
  lower raw ≠ EmptyString →
  posting_count (HashTable st') (lower raw) id
  = posting_count (HashTable st) (lower raw) id + 1
  ∧ ∀ t id', (t, id') ≠ (lower raw, id) →
      posting_count (HashTable st') t id' = posting_count (HashTable st) t id'.
Proof.
  intros Hrun Hsz Hh Hne.
  destruct (InsertIndex_count _ _ _ _ _ Hrun Hsz Hh) as [_ Hcount]. split.
  - rewrite Hcount. destruct (decide _) as [|[]]; done.
  - intros t id' Hother. rewrite Hcount.
    destruct (decide _) as [(<- & _ & ->)|]; [done|lia].
Qed.

Lemma InsertIndex_counts_once_witness :
  posting_count
    (HashTable (state_of (InsertIndex "Cat" 1 "doc.txt"
                  (state_of (InsertIndex "cat" 1 "doc.txt" (init []))))))
    "cat" 1 = 2.
Proof.
  destruct (InsertIndex_counts_once "Cat" 1 "doc.txt"
              (state_of (InsertIndex "cat" 1 "doc.txt" (init [])))
              (state_of (InsertIndex "Cat" 1 "doc.txt"
                  (state_of (InsertIndex "cat" 1 "doc.txt" (init []))))))
    as [Hcount _].
  - vm_compute. reflexivity.
  - vm_compute. reflexivity.
  - constructor.
  - discriminate.
  - etransitivity; [exact Hcount|]. vm_compute. reflexivity.
Defined.



(** X5.  A file name of 50 characters or more overruns [doc_name]: a call
    that has to make a new posting, and gets the memory for it, copies the
    name past the end of the array. *)
Theorem long_name_overflows raw id name st :
  (String.length raw < MAX_WORD_LEN)%nat →
  lower raw ≠ EmptyString →
  (DOC_NAME_LEN ≤ String.length name)%nat →
  needs_allocation (lower raw) id
    (bucket (HashTable st) (Z.to_nat (HashFunction (lower raw)))) = true →
  no_failure (heap st) →
  InsertIndex raw id name st = Undefined BufferOverflow.
Proof.
  intros Hraw Hne Hname Hneeds Hh. unfold InsertIndex.
  rewrite ToLowerCase_fits by done. simpl.
  destruct (Nat.eqb_spec (String.length (lower raw)) 0) as [Hz|_];
    [by destruct (lower raw)|].
  assert (∀ h docs, no_failure h → find_doc id docs = None →
            record_occurrence id name docs h = Undefined BufferOverflow) as Hrec.
  { intros h docs Hh' Hnone. unfold record_occurrence. rewrite Hnone.
    destruct (malloc h) as [ok h'] eqn:Hm.
    apply (malloc_no_failure _ _ _ Hm) in Hh' as [-> _].
    unfold strcpy. destruct (Nat.ltb_spec (String.length name) DOC_NAME_LEN);
      [lia|done]. }
  unfold find_or_create, needs_allocation in *.
  destruct (find_word _ _) as [[[before p] behind]|]; simpl.
  - destruct (find_doc id (doc_list p)) as [[[b d] c]|] eqn:Hd; [done|].
    by rewrite Hrec.
  - destruct (malloc (heap st)) as [ok h1] eqn:Hm.
    apply (malloc_no_failure _ _ _ Hm) in Hh as [-> Hh1].
    unfold strcpy at 1. rewrite lower_length.
    destruct (Nat.ltb_spec (String.length raw) MAX_WORD_LEN); [|lia]. simpl.
    by rewrite Hrec.
Qed.

Lemma long_name_overflows_witness :
  InsertIndex "cat" 1 long_token (init []) = Undefined BufferOverflow.
Proof.
  apply (long_name_overflows "cat" 1 long_token (init [])).
  - vm_compute. lia.
  - discriminate.
  - vm_compute. lia.
  - reflexivity.
  - constructor.
Defined.

(** ** Reachable states *)

Lemma insert_all_reachable calls st st' :
  reachable st → insert_all calls st = Done st' → reachable st'.
Proof.
  revert st. induction calls as [|[[raw id] name] calls IH]; intros st Hst; simpl.
  - by intros [= <-].
  - destruct (InsertIndex raw id name st) as [st1|] eqn:H1; simpl; [|done].
    apply IH. by eapply reachable_insert.
Qed.

Lemma insert_tokens_reachable tokens id name st st' :
  reachable st → insert_tokens tokens id name st = Done st' → reachable st'.
Proof.
  revert st. induction tokens as [|token tokens IH]; intros st Hst; simpl.
  - by intros [= <-].
  - destruct (InsertIndex token id name st) as [st1|] eqn:H1; simpl; [|done].
    apply IH. by eapply reachable_insert.
Qed.

Lemma LoadFileAndIndex_reachable fs id filename st out st' :
  reachable st → LoadFileAndIndex fs id filename st = Done (out, st') →
  reachable st'.
Proof.
  intros Hst. destruct (fs filename) as [content|] eqn:Hfs.
  - rewrite (LoadFileAndIndex_tokens _ _ _ content) by done.
    destruct (insert_tokens _ _ _ st) as [st1|] eqn:Hins; simpl; [|done].
    intros [= _ <-]. by eapply insert_tokens_reachable.
  - rewrite LoadFileAndIndex_missing by done. by intros [= _ <-].
Qed.

Lemma build_loop_reachable fs i files st out st' :
  reachable st → build_loop fs i files st = Done (out, st') → reachable st'.
Proof.
  revert i st out. induction files as [|f files IH]; intros i st out Hst; simpl.
  - by intros [= _ <-].
  - destruct (LoadFileAndIndex fs (i + 1) f st) as [[out1 st1]|] eqn:H1;
      simpl; [|done].
    destruct (build_loop fs (i + 1) files st1) as [[out2 st2]|] eqn:H2;
      simpl; [|done].
    intros [= _ <-]. eapply IH; [|exact H2].
    by eapply LoadFileAndIndex_reachable.
Qed.

Lemma reachable_sized st : reachable st → table_sized (HashTable st).
Proof.
  induction 1 as [h|raw id name st st' _ IH Hrun].
  - apply empty_table_sized.
  - by eapply InsertIndex_sized.
Qed.

Lemma reachable_ok st : reachable st → table_ok (HashTable st).
Proof.
  induction 1 as [h|raw id name st st' _ IH Hrun].
  - apply empty_table_ok.
  - by eapply InsertIndex_ok.
Qed.

(** ** The shape of stored words *)

Lemma chain_step_word_ok raw id name chain h chain' h' :
  chain_step (lower raw) id name chain h chain' h' →
  (String.length raw < MAX_WORD_LEN)%nat → lower raw ≠ EmptyString →
  Forall (word_ok (Z.to_nat (HashFunction (lower raw)))) chain →
  Forall (word_ok (Z.to_nat (HashFunction (lower raw)))) chain'.
Proof.
  intros Hstep Hlen Hne Hchain.
  assert (∀ docs, word_ok (Z.to_nat (HashFunction (lower raw)))
                    {| word := lower raw; doc_list := docs |}) as Hnew.
  { intros docs. unfold word_ok; simpl.
    by rewrite lower_length, lower_idempotent. }
  destruct Hstep as [before p behind h docs' h' Hb Hp Hd | chain h Hall
                    | chain h h1 docs' h' Hall Hm Hd]; [| done |].
  - apply Forall_app in Hchain as [Hbefore [_ Hbehind]%Forall_cons].
    apply Forall_app. split; [done|]. by constructor.
  - by constructor.
Qed.

Lemma InsertIndex_words_ok raw id name st st' :
  words_ok (HashTable st) → InsertIndex raw id name st = Done st' →
  words_ok (HashTable st').
Proof.
  intros Hok [Hlen [[_ ->]|(Hne & chain' & Hstep & ->)]]%InsertIndex_Done;
    [done|].
  intros i chain [(<- & <- & _)|[_ Hi]]%list_lookup_insert_Some;
    [|by apply Hok].
  eapply chain_step_word_ok; [exact Hstep|done..|].
  unfold bucket. destruct (HashTable st !! _) as [c|] eqn:Hc; simpl.
  - by apply Hok.
  - constructor.
Qed.

Lemma empty_table_words_ok : words_ok empty_table.
Proof.
  intros i chain Hi. apply lookup_replicate in Hi as [-> _]. constructor.
Qed.

Lemma reachable_words_ok st : reachable st → words_ok (HashTable st).
Proof.
  induction 1 as [h|raw id name st st' _ IH Hrun].
  - apply empty_table_words_ok.
  - by eapply InsertIndex_words_ok.
Qed.

(** X6.  In every state the program reaches from the cleared table, by any
    calls of [InsertIndex] or by the loop of [main], the table has its 1007
    slots and every word node sits in the slot its word hashes to, with a
    word that has at least one character, fewer than 50, and no upper-case
    letter (it is its own lower-cased form). *)
Theorem stored_words_are_normal :
  (∀ calls h st,
     insert_all calls (init h) = Done st →
     table_sized (HashTable st) ∧ words_ok (HashTable st))
  ∧ (∀ fs i files h out st,
       build_loop fs i files (init h) = Done (out, st) →
       table_sized (HashTable st) ∧ words_ok (HashTable st)).
Proof.
  split.
  - intros calls h st Hrun.
    pose proof (insert_all_reachable _ _ _ (reachable_init h) Hrun).
    split; [by apply reachable_sized|by apply reachable_words_ok].
  - intros fs i files h out st Hrun.
    pose proof (build_loop_reachable _ _ _ _ _ _ (reachable_init h) Hrun).
    split; [by apply reachable_sized|by apply reachable_words_ok].
Qed.

Lemma stored_words_are_normal_witness :
  words_ok
    (HashTable (state_of (insert_all [("The", 1, "a.txt"); ("BS", 2, "b.txt");
                                      ("cat", 2, "b.txt")] (init [])))).
Proof.
  apply (proj1 stored_words_are_normal
           [("The", 1, "a.txt"); ("BS", 2, "b.txt"); ("cat", 2, "b.txt")] []).
  vm_compute. reflexivity.
Defined.

(** X7.  Lookup finds every node of the table: in a reachable state, the
    posting list that [Search] reaches for the word of a node is the posting
    list of that very node. *)
Theorem stored_word_is_found calls h st i chain p :
  insert_all calls (init h) = Done st →
  HashTable st !! i = Some chain → p ∈ chain →
  postings (HashTable st) (word p) = Some (doc_list p).
Proof.
  intros Hrun Hi Hp.
  pose proof (insert_all_reachable _ _ _ (reachable_init h) Hrun) as Hreach.
  pose proof (reachable_words_ok _ Hreach i chain Hi) as Hwords.
  pose proof (reachable_ok _ Hreach) as Hok.
  eapply Forall_lookup_1 in Hok as [Hnodup _]; [|exact Hi].
  eapply Forall_forall in Hwords as (Hslot & _); [|exact Hp].
  unfold postings, bucket. rewrite Hslot, Hi. simpl.
  apply list_elem_of_split in Hp as (before & behind & ->).
  unfold chain_docs.
  rewrite (find_word_at (word p) before p behind); try done.
  rewrite fmap_app, fmap_cons in Hnodup.
  apply NoDup_app in Hnodup as (_ & Hdisj & _).
  apply Forall_forall. intros n Hn Heq.
  apply (Hdisj (word n)); [by apply list_elem_of_fmap_2|].
  rewrite Heq. by apply elem_of_cons; left.
Qed.

Lemma stored_word_is_found_witness :
  postings
    (HashTable (state_of (insert_all [("bs", 2, "b.txt"); ("cat", 1, "a.txt")]
                            (init []))))
    "bs"
  = Some [{| doc_id := 2; doc_name := "b.txt"; frequency := 1 |}].
Proof.
  apply (stored_word_is_found
           [("bs", 2, "b.txt"); ("cat", 1, "a.txt")] []
           (state_of (insert_all [("bs", 2, "b.txt"); ("cat", 1, "a.txt")]
                        (init [])))
           869%nat
           [{| word := "cat";
               doc_list := [{| doc_id := 1; doc_name := "a.txt"; frequency := 1 |}] |};
            {| word := "bs";
               doc_list := [{| doc_id := 2; doc_name := "b.txt"; frequency := 1 |}] |}]
           {| word := "bs";
              doc_list := [{| doc_id := 2; doc_name := "b.txt"; frequency := 1 |}] |}).
  - vm_compute. reflexivity.
  - vm_compute. reflexivity.
  - apply elem_of_cons; right. apply elem_of_cons; left. reflexivity.
Defined.

(** X8.  A query without characters finds nothing in a reachable state: no
    word node holds the empty word. *)
Theorem empty_query_finds_nothing calls h st :
  insert_all calls (init h) = Done st →
  Search (HashTable st) EmptyString = Done [NoDocument EmptyString].
Proof.
  intros Hrun.
  pose proof (insert_all_reachable _ _ _ (reachable_init h) Hrun) as Hreach.
  pose proof (reachable_words_ok _ Hreach) as Hwords.
  unfold Search. simpl.
  destruct (find_word _ _) as [[[before p] behind]|] eqn:Hfind; [|done].
  apply find_word_Some in Hfind as (Hchain & Hp & _).
  unfold bucket in Hchain.
  destruct (HashTable st !! _) as [chain|] eqn:Hi; simpl in Hchain;
    [|by destruct before].
  specialize (Hwords _ _ Hi). rewrite Hchain in Hwords.
  apply Forall_app in Hwords as [_ [(_ & Hne & _) _]%Forall_cons]. done.
Qed.

Lemma empty_query_finds_nothing_witness :
  Search
    (HashTable (state_of (insert_all [("The", 1, "a.txt"); ("cat", 2, "b.txt")]
                            (init []))))
    EmptyString
  = Done [NoDocument EmptyString].
Proof.
  apply (empty_query_finds_nothing
           [("The", 1, "a.txt"); ("cat", 2, "b.txt")] []).
  vm_compute. reflexivity.
Defined.

(** ** The shape of postings *)

Lemma docs_step_ok id name docs h docs' h' :
  docs_step id name docs h docs' h' → Forall doc_ok docs → Forall doc_ok docs'.
Proof.
  destruct 1 as [before d behind h Hb Hd Hf | docs h Hall | docs h h' Hall Hm Hn];
    intros Hdocs; [| done |].
  - apply Forall_app in Hdocs as [Hbefore [[Hfreq Hname] Hbehind]%Forall_cons].
    apply Forall_app. split; [done|]. constructor; [|done].
    unfold doc_ok; simpl. split; [lia|done].
  - constructor; [|done]. unfold doc_ok; simpl. split; [|done].
    unfold INT_MAX. lia.
Qed.

Lemma chain_step_docs_ok w id name chain h chain' h' :
  chain_step w id name chain h chain' h' →
  Forall (λ p, Forall doc_ok (doc_list p)) chain →
  Forall (λ p, Forall doc_ok (doc_list p)) chain'.
Proof.
  destruct 1 as [before p behind h docs' h' Hb Hp Hd | chain h Hall
                | chain h h1 docs' h' Hall Hm Hd]; intros Hchain; [| done |].
  - apply Forall_app in Hchain as [Hbefore [Hp' Hbehind]%Forall_cons].
    apply Forall_app. split; [done|]. constructor; [|done]. simpl.
    by eapply docs_step_ok.
  - constructor; [|done]. simpl. eapply docs_step_ok; [exact Hd|]. constructor.
Qed.

Lemma bucket_Forall (P : WordNode → Prop) table idx :
  Forall (Forall P) table → Forall P (bucket table idx).
Proof.
  intros Hall. unfold bucket. destruct (table !! idx) as [chain|] eqn:H; simpl.
  - by eapply Forall_lookup_1 in Hall.
  - constructor.
Qed.

Lemma reachable_docs_ok st : reachable st → docs_ok (HashTable st).
Proof.
  induction 1 as [h|raw id name st st' _ IH Hrun].
  - apply Forall_replicate. constructor.
  - apply InsertIndex_Done in Hrun
      as [_ [[_ ->]|(_ & chain' & Hstep & ->)]]; [done|].
    apply Forall_insert; [done|].
    eapply chain_step_docs_ok; [exact Hstep|]. by apply bucket_Forall.
Qed.

(** X9.  In every state the program reaches from the cleared table, every
    posting has a count between 1 and [INT_MAX] and a name that fits
    [doc_name]. *)
Theorem stored_postings_are_bounded :
  (∀ calls h st, insert_all calls (init h) = Done st → docs_ok (HashTable st))
  ∧ (∀ fs i files h out st,
       build_loop fs i files (init h) = Done (out, st) → docs_ok (HashTable st)).
Proof.
  split.
  - intros calls h st Hrun. apply reachable_docs_ok.
    by eapply insert_all_reachable; [apply reachable_init|].
  - intros fs i files h out st Hrun. apply reachable_docs_ok.
    by eapply build_loop_reachable; [apply reachable_init|].
Qed.

Lemma stored_postings_are_bounded_witness :
  docs_ok
    (HashTable (state_of (insert_all [("The", 1, "a.txt"); ("the", 1, "a.txt");
                                      ("cat", 2, "b.txt")] (init [false])))).
Proof.
  apply (proj1 stored_postings_are_bounded
           [("The", 1, "a.txt"); ("the", 1, "a.txt"); ("cat", 2, "b.txt")]
           [false]).
  vm_compute. reflexivity.
Defined.

(** ** Word nodes without postings *)

Lemma docs_step_present id name docs h docs' h' :
  docs_step id name docs h docs' h' → no_failure h → docs' ≠ [].
Proof.
  destruct 1 as [before d behind h Hb Hd Hf | docs h Hall | docs h h' Hall Hm Hn];
    intros Hh.
  - by destruct before.
  - by apply Forall_cons in Hh as [? _].
  - done.
Qed.

Lemma chain_step_present w id name chain h chain' h' :
  chain_step w id name chain h chain' h' → no_failure h →
  Forall (λ p, doc_list p ≠ []) chain →
  Forall (λ p, doc_list p ≠ []) chain'.
Proof.
  destruct 1 as [before p behind h docs' h' Hb Hp Hd | chain h Hall
                | chain h h1 docs' h' Hall Hm Hd]; intros Hh Hchain; [| done |].
  - apply Forall_app in Hchain as [Hbefore [Hp' Hbehind]%Forall_cons].
    apply Forall_app. split; [done|]. constructor; [|done]. simpl.
    by eapply docs_step_present.
  - constructor; [|done]. simpl.
    apply (malloc_no_failure _ _ _ Hm) in Hh as [_ Hh1].
    by eapply docs_step_present.
Qed.

Lemma InsertIndex_present raw id name st st' :
  no_failure (heap st) → postings_present (HashTable st) →
  InsertIndex raw id name st = Done st' →
  no_failure (heap st') ∧ postings_present (HashTable st').
Proof.
  intros Hh Hp [_ [[_ ->]|(_ & chain' & Hstep & Htable)]]%InsertIndex_Done;
    [done|].
  split; [by eapply chain_step_count|]. rewrite Htable.
  apply Forall_insert; [done|].
  eapply chain_step_present; [exact Hstep|done|]. by apply bucket_Forall.
Qed.

Lemma insert_tokens_present tokens id name st st' :
  no_failure (heap st) → postings_present (HashTable st) →
  insert_tokens tokens id name st = Done st' →
  no_failure (heap st') ∧ postings_present (HashTable st').
Proof.
  revert st. induction tokens as [|token tokens IH]; intros st Hh Hp; simpl.
  - by intros [= <-].
  - destruct (InsertIndex token id name st) as [st1|] eqn:H1; simpl; [|done].
    destruct (InsertIndex_present _ _ _ _ _ Hh Hp H1). by apply IH.
Qed.

Lemma build_loop_present fs i files st out st' :
  no_failure (heap st) → postings_present (HashTable st) →
  build_loop fs i files st = Done (out, st') →
  no_failure (heap st') ∧ postings_present (HashTable st').
Proof.
  revert i st out. induction files as [|f files IH]; intros i st out Hh Hp; simpl.
  - by intros [= _ <-].
  - destruct (LoadFileAndIndex fs (i + 1) f st) as [[out1 st1]|] eqn:H1;
      simpl; [|done].
    destruct (build_loop fs (i + 1) files st1) as [[out2 st2]|] eqn:H2;
      simpl; [|done].
    intros [= _ <-].
    assert (no_failure (heap st1) ∧ postings_present (HashTable st1)) as [??].
    { destruct (fs f) as [content|] eqn:Hfs.
      - rewrite (LoadFileAndIndex_tokens _ _ _ content) in H1 by done.
        destruct (insert_tokens _ _ _ st) as [st1'|] eqn:Hins; [|done].
        injection H1 as _ <-. by eapply insert_tokens_present.
      - rewrite LoadFileAndIndex_missing in H1 by done.
        by injection H1 as _ <-. }
    by eapply IH.
Qed.

Lemma print_docs_rows docs : IndexAbnormal ∉ print_docs docs.
Proof.
  induction docs as [|d docs IH]; simpl.
  - apply not_elem_of_nil.
  - by intros [?|?]%elem_of_cons.
Qed.

(** X10.  When no allocation fails while [main]'s loop builds the index,
    every word node has a posting, and so [Search] never prints its report
    of an abnormal index, whatever the query. *)
Theorem no_abnormal_report fs i files h out st query printed :
  no_failure h →
  build_loop fs i files (init h) = Done (out, st) →
  Search (HashTable st) query = Done printed →
  IndexAbnormal ∉ printed.
Proof.
  intros Hh Hrun.
  destruct (build_loop_present fs i files (init h) out st Hh) as [_ Hpresent];
    [by apply Forall_replicate|done|].
  unfold Search.
  destruct (ToLowerCase MAX_WORD_LEN query) as [w|]; simpl; [|done].
  destruct (find_word _ _) as [[[before p] behind]|] eqn:Hfind.
  - apply find_word_Some in Hfind as (Hchain & _ & _).
    pose proof (bucket_Forall _ _ (Z.to_nat (HashFunction w)) Hpresent) as Hb.
    rewrite Hchain in Hb.
    apply Forall_app in Hb as [_ [Hp _]%Forall_cons].
    destruct (doc_list p) as [|d docs] eqn:Hdocs; [done|].
    intros [= <-]. rewrite app_nil_r.
    intros [?|Hin]%elem_of_cons; [done|].
    by apply (print_docs_rows (d :: docs)).
  - intros [= <-]. by intros [?|?%elem_of_nil]%elem_of_cons.
Qed.

Lemma no_abnormal_report_witness :
  IndexAbnormal ∉ [ResultHeader "The"; ResultRow "a.txt" 2].
Proof.
  apply (no_abnormal_report (fs_of [("a.txt", "the fox and the hound")]) 0
           ["a.txt"] []
           [Indexing "a.txt"]
           (state_of (insert_tokens ["the"; "fox"; "and"; "the"; "hound"] 1
                        "a.txt" (init [])))
           "The").
  - constructor.
  - vm_compute. reflexivity.
  - vm_compute. reflexivity.
Defined.

(** ** Where a posting goes *)

Lemma docs_step_result id name docs h docs' h' :
  docs_step id name docs h docs' h' → no_failure h →
  docs' = match find_doc id docs with
          | Some (before, d, behind) => before ++ incremented d :: behind
          | None => {| doc_id := id; doc_name := name; frequency := 1 |} :: docs
          end.
Proof.
  destruct 1 as [before d behind h Hb Hd Hf | docs h Hall | docs h h' Hall Hm Hn];
    intros Hh.
  - by rewrite (find_doc_at id before d behind).
  - by apply Forall_cons in Hh as [? _].
  - by apply find_doc_None in Hall as ->.
Qed.

Lemma chain_step_result w id name chain h chain' h' :
  chain_step w id name chain h chain' h' → no_failure h →
  chain_docs w chain' =
  Some match find_doc id (default [] (chain_docs w chain)) with
       | Some (before, d, behind) => before ++ incremented d :: behind
       | None => {| doc_id := id; doc_name := name; frequency := 1 |}
                 :: default [] (chain_docs w chain)
       end.
Proof.
  destruct 1 as [before p behind h docs' h' Hb Hp Hd | chain h Hall
                | chain h h1 docs' h' Hall Hm Hd]; intros Hh.
  - unfold chain_docs.
    rewrite !(find_word_at w before _ behind _ eq_refl) by done. simpl.
    f_equal. by eapply docs_step_result.
  - by apply Forall_cons in Hh as [? _].
  - apply (malloc_no_failure _ _ _ Hm) in Hh as [_ Hh1].
    unfold chain_docs. rewrite find_word_head by done.
    apply find_word_None in Hall as ->. simpl.
    f_equal. by apply (docs_step_result _ _ _ _ _ _ Hd).
Qed.

Lemma InsertIndex_postings_after raw id name st st' :
  InsertIndex raw id name st = Done st' →
  table_sized (HashTable st) → no_failure (heap st) →
  lower raw ≠ EmptyString →
  postings (HashTable st') (lower raw) =
  Some match find_doc id (default [] (postings (HashTable st) (lower raw))) with
       | Some (before, d, behind) => before ++ incremented d :: behind
       | None => {| doc_id := id; doc_name := name; frequency := 1 |}
                 :: default [] (postings (HashTable st) (lower raw))
       end.
Proof.
  intros [_ [[Hw _]|(_ & chain' & Hstep & Htable)]]%InsertIndex_Done Hsz Hh Hne;
    [done|].
  unfold postings. rewrite Htable, bucket_insert.
  destruct (decide _) as [_|[]]; [|split; [done|by apply HashFunction_index]].
  by eapply chain_step_result.
Qed.

(** X11.  Where [InsertIndex] records an occurrence, when no allocation
    fails: a document that has a posting for the word keeps its place in
    the list and has its count raised by one; a document without one gets a
    new posting with count 1 at the head of the list, in front of the
    postings there were. *)
Theorem InsertIndex_postings raw id name st st' :
  InsertIndex raw id name st = Done st' →
  table_sized (HashTable st) → no_failure (heap st) →
  lower raw ≠ EmptyString →
  postings (HashTable st') (lower raw) =
  Some match find_doc id (default [] (postings (HashTable st) (lower raw))) with
       | Some (before, d, behind) => before ++ incremented d :: behind
       | None => {| doc_id := id; doc_name := name; frequency := 1 |}
                 :: default [] (postings (HashTable st) (lower raw))
       end.
Proof. apply InsertIndex_postings_after. Qed.

Lemma InsertIndex_postings_witness :
  postings
    (HashTable (state_of (InsertIndex "The" 2 "b.txt"
                  (state_of (InsertIndex "the" 1 "a.txt" (init []))))))
    "the"
  = Some [{| doc_id := 2; doc_name := "b.txt"; frequency := 1 |};
          {| doc_id := 1; doc_name := "a.txt"; frequency := 1 |}].
Proof.
  etransitivity.
  - apply (InsertIndex_postings "The" 2 "b.txt"
             (state_of (InsertIndex "the" 1 "a.txt" (init [])))
             (state_of (InsertIndex "The" 2 "b.txt"
                          (state_of (InsertIndex "the" 1 "a.txt" (init []))))));
      [vm_compute; reflexivity | vm_compute; reflexivity
      | constructor | discriminate].
  - vm_compute. reflexivity.
Defined.

(** ** Nothing is forgotten *)

Lemma docs_step_count_le id name docs h docs' h' id' :
  docs_step id name docs h docs' h' → count_in docs id' ≤ count_in docs' id'.
Proof.
  destruct 1 as [before d behind h Hb Hd Hf | docs h Hall | docs h h' Hall Hm Hn];
    [| done |].
  - destruct (decide (id' = id)) as [->|Hne].
    + unfold count_in.
      rewrite !(find_doc_at id before _ behind _ eq_refl) by done. simpl. lia.
    + rewrite !count_in_fmap. unfold find_doc.
      rewrite (find_first_replace _ frequency before d
                 {| doc_id := doc_id d; doc_name := doc_name d;
                    frequency := frequency d + 1 |} behind); [lia| |];
        simpl; apply Z.eqb_neq; congruence.
  - destruct (decide (id' = id)) as [->|Hne].
    + unfold count_in. rewrite find_doc_head by done.
      apply find_doc_None in Hall as ->. simpl. lia.
    + rewrite !count_in_fmap. unfold find_doc.
      rewrite find_first_cons; [lia|]. simpl. apply Z.eqb_neq. congruence.
Qed.

Lemma chain_step_count_le w id name chain h chain' h' id' :
  chain_step w id name chain h chain' h' →
  count_in (default [] (chain_docs w chain)) id'
  ≤ count_in (default [] (chain_docs w chain')) id'.
Proof.
  destruct 1 as [before p behind h docs' h' Hb Hp Hd | chain h Hall
                | chain h h1 docs' h' Hall Hm Hd]; [| done |].
  - unfold chain_docs.
    rewrite !(find_word_at w before _ behind _ eq_refl) by done. simpl.
    by eapply docs_step_count_le.
  - unfold chain_docs. rewrite find_word_head by done.
    apply find_word_None in Hall as ->. simpl.
    by apply (docs_step_count_le _ _ _ _ _ _ _ Hd).
Qed.

(** X12.  No call of [InsertIndex] takes anything away, whether or not an
    allocation fails in it: every word of the table is a word of the table
    afterwards, and no count of any word for any document is lower
    afterwards. *)
Theorem InsertIndex_never_forgets raw id name st st' :
  InsertIndex raw id name st = Done st' →
  (∀ t, t ∈ table_words (HashTable st) → t ∈ table_words (HashTable st'))
  ∧ (∀ t id', posting_count (HashTable st) t id'
              ≤ posting_count (HashTable st') t id').
Proof.
  intros [_ [[_ ->]|(_ & chain' & Hstep & Htable)]]%InsertIndex_Done; [done|].
  rewrite Htable. split.
  - intros t (i & chain & Hi & Ht)%elem_of_table_words.
    apply elem_of_table_words.
    destruct (decide (i = Z.to_nat (HashFunction (lower raw)))) as [->|Hne].
    + exists (Z.to_nat (HashFunction (lower raw))), chain'. split.
      * apply list_lookup_insert_eq. by eapply lookup_lt_Some.
      * unfold bucket in Hstep. rewrite Hi in Hstep. simpl in Hstep.
        destruct (chain_step_words _ _ _ _ _ _ _ Hstep) as [->|[-> _]];
          [done|by apply elem_of_cons; right].
    + exists i, chain. by rewrite list_lookup_insert_ne.
  - intros t id'. unfold posting_count, postings. rewrite bucket_insert.
    destruct (decide _) as [[Hidx _]|_]; [|lia].
    destruct (decide (t = lower raw)) as [->|Hne].
    + by eapply chain_step_count_le.
    + rewrite Hidx, (chain_step_other _ _ _ _ _ _ _ t Hstep) by done. lia.
Qed.

Lemma InsertIndex_never_forgets_witness :
  posting_count
    (HashTable (state_of (InsertIndex "the" 1 "a.txt" (init [true; true; false]))))
    "the" 1
  ≤ posting_count
      (HashTable (state_of (InsertIndex "cat" 1 "a.txt"
         (state_of (InsertIndex "the" 1 "a.txt" (init [true; true; false]))))))
      "the" 1.
Proof.
  apply (InsertIndex_never_forgets "cat" 1 "a.txt"
           (state_of (InsertIndex "the" 1 "a.txt" (init [true; true; false])))
           (state_of (InsertIndex "cat" 1 "a.txt"
              (state_of (InsertIndex "the" 1 "a.txt" (init [true; true; false])))))).
  vm_compute. reflexivity.
Defined.

(** ** The order of postings *)

Lemma decreasing_weaken bound bound' ids :
  bound ≤ bound' → decreasing bound ids → decreasing bound' ids.
Proof. destruct ids as [|id ids]; simpl; [done|]. intros ? [? ?]. split; [lia|done]. Qed.

Lemma docs_step_decreasing bound id name docs h docs' h' :
  docs_step id name docs h docs' h' →
  decreasing bound (doc_id <$> docs) → bound ≤ id →
  decreasing id (doc_id <$> docs').
Proof.
  intros Hstep Hdec Hle.
  destruct (docs_step_ids _ _ _ _ _ _ Hstep) as [->|[-> Hnew]];
    [by eapply decreasing_weaken|].
  simpl. split; [lia|].
  destruct (doc_id <$> docs) as [|id0 ids]; simpl in *; [done|].
  destruct Hdec as [? ?]. split; [|done].
  assert (id0 ≠ id) by (intros ->; apply Hnew; by apply elem_of_cons; left).
  lia.
Qed.

Lemma chain_step_newest bound w id name chain h chain' h' :
  chain_step w id name chain h chain' h' →
  Forall (λ p, decreasing bound (doc_id <$> doc_list p)) chain → bound ≤ id →
  Forall (λ p, decreasing id (doc_id <$> doc_list p)) chain'.
Proof.
  intros Hstep Hchain Hle.
  assert (Forall (λ p, decreasing id (doc_id <$> doc_list p)) chain) as Hweak.
  { eapply Forall_impl; [exact Hchain|].
    intros p. by apply decreasing_weaken. }
  destruct Hstep as [before p behind h docs' h' Hb Hp Hd | chain h Hall
                    | chain h h1 docs' h' Hall Hm Hd]; [| done |].
  - apply Forall_app in Hchain as [_ [Hp' _]%Forall_cons].
    apply Forall_app in Hweak as [Hbefore [_ Hbehind]%Forall_cons].
    apply Forall_app. split; [done|]. constructor; [|done]. simpl.
    by eapply docs_step_decreasing.
  - constructor; [|done]. simpl.
    by eapply (docs_step_decreasing bound); [exact Hd| |].
Qed.

Lemma newest_first_weaken bound bound' table :
  bound ≤ bound' → newest_first bound table → newest_first bound' table.
Proof.
  intros Hle Htable. eapply Forall_impl; [exact Htable|].
  intros chain Hchain. eapply Forall_impl; [exact Hchain|].
  intros p. by apply decreasing_weaken.
Qed.

Lemma InsertIndex_newest bound raw id name st st' :
  newest_first bound (HashTable st) → bound ≤ id →
  InsertIndex raw id name st = Done st' → newest_first id (HashTable st').
Proof.
  intros Hnew Hle [_ [[_ ->]|(_ & chain' & Hstep & ->)]]%InsertIndex_Done;
    [by eapply newest_first_weaken|].
  apply Forall_insert; [by eapply newest_first_weaken|].
  eapply chain_step_newest; [exact Hstep| |done]. by apply bucket_Forall.
Qed.

Lemma insert_tokens_newest bound tokens id name st st' :
  newest_first bound (HashTable st) → bound ≤ id →
  insert_tokens tokens id name st = Done st' → newest_first id (HashTable st').
Proof.
  revert bound st. induction tokens as [|token tokens IH]; intros bound st Hnew Hle;
    simpl.
  - intros [= <-]. by eapply newest_first_weaken.
  - destruct (InsertIndex token id name st) as [st1|] eqn:H1; simpl; [|done].
    apply (IH id); [|lia]. by eapply InsertIndex_newest.
Qed.

Lemma build_loop_newest fs i files st out st' :
  newest_first i (HashTable st) →
  build_loop fs i files st = Done (out, st') →
  newest_first (i + Z.of_nat (length files)) (HashTable st').
Proof.
  revert i st out. induction files as [|f files IH]; intros i st out Hnew.
  - simpl. intros [= _ <-]. by rewrite Z.add_0_r.
  - cbn [build_loop length].
    destruct (LoadFileAndIndex fs (i + 1) f st) as [[out1 st1]|] eqn:H1;
      simpl; [|done].
    destruct (build_loop fs (i + 1) files st1) as [[out2 st2]|] eqn:H2;
      simpl; [|done].
    intros [= _ <-].
    replace (i + Z.of_nat (S (length files)))
      with (i + 1 + Z.of_nat (length files)) by lia.
    eapply IH; [|exact H2].
    destruct (fs f) as [content|] eqn:Hfs.
    + rewrite (LoadFileAndIndex_tokens _ _ _ content) in H1 by done.
      destruct (insert_tokens _ _ _ st) as [st1'|] eqn:Hins; [|done].
      injection H1 as _ <-.
      eapply (insert_tokens_newest i); [done|lia|exact Hins].
    + rewrite LoadFileAndIndex_missing in H1 by done.
      injection H1 as _ <-. eapply newest_first_weaken; [|done]. lia.
Qed.

(** X13.  After the loop of [main], every posting list runs from the file
    loaded last to the file loaded first: the document numbers from the head
    on are strictly decreasing, none above the number of the last file.
    [Search] prints the rows in that order. *)
Theorem postings_newest_first fs i files h out st t docs :
  build_loop fs i files (init h) = Done (out, st) →
  postings (HashTable st) t = Some docs →
  decreasing (i + Z.of_nat (length files)) (doc_id <$> docs).
Proof.
  intros Hrun Hp.
  assert (newest_first i (HashTable (init h))) as Hinit.
  { apply Forall_replicate. constructor. }
  pose proof (build_loop_newest _ _ _ _ _ _ Hinit Hrun) as Hnew.
  unfold postings, chain_docs in Hp.
  destruct (find_word _ _) as [[[before p] behind]|] eqn:Hfind; [|done].
  injection Hp as <-. apply find_word_Some in Hfind as (Hchain & _ & _).
  pose proof (bucket_Forall _ _ (Z.to_nat (HashFunction t)) Hnew) as Hb.
  rewrite Hchain in Hb. by apply Forall_app in Hb as [_ [? _]%Forall_cons].
Qed.

Lemma postings_newest_first_witness :
  decreasing 3 [3; 1].
Proof.
  apply (postings_newest_first
           (fs_of [("a.txt", "the fox"); ("b.txt", "a hound");
                   ("c.txt", "The End")])
           0 ["a.txt"; "b.txt"; "c.txt"] []
           [Indexing "a.txt"; Indexing "b.txt"; Indexing "c.txt"]
           (state_of (insert_all [("the", 1, "a.txt"); ("fox", 1, "a.txt");
                                  ("a", 2, "b.txt"); ("hound", 2, "b.txt");
                                  ("The", 3, "c.txt"); ("End", 3, "c.txt")]
                        (init [])))
           "the"
           [{| doc_id := 3; doc_name := "c.txt"; frequency := 1 |};
            {| doc_id := 1; doc_name := "a.txt"; frequency := 1 |}]).
  - vm_compute. reflexivity.
  - vm_compute. reflexivity.
Defined.

(** ** Tokens *)

Lemma scan_token_free delims s : free_of delims (scan_token delims s).1 = true.
Proof.
  induction s as [|c s IH]; simpl; [done|].
  destruct (char_in c delims) eqn:Hc; simpl; [done|]. by rewrite Hc.
Qed.

Lemma strtok_free delims save token save' :
  strtok delims save = Some (token, save') → free_of delims token = true.
Proof.
  unfold strtok. destruct (skip delims save) as [|c s]; [done|].
  intros Hscan. apply (inj Some) in Hscan.
  replace token with (scan_token delims (String c s)).1 by (by rewrite Hscan).
  apply scan_token_free.
Qed.

Lemma strtok_all_free fuel save :
  Forall (λ token, free_of delimiters token = true) (strtok_all fuel save).
Proof.
  revert save. induction fuel as [|fuel IH]; intros save; simpl; [done|].
  destruct (strtok delimiters save) as [[token save']|] eqn:Htok; [|done].
  constructor; [by eapply strtok_free|done].
Qed.

(** X14.  Every token that the loader hands to [InsertIndex] has at least
    one character and none of the separator characters in it. *)
Theorem tokens_are_words content token :
  token ∈ file_tokens content →
  token ≠ EmptyString ∧ free_of delimiters token = true.
Proof.
  intros Hin. split.
  - pose proof (file_tokens_nonempty content) as Hall.
    by eapply Forall_forall in Hall.
  - assert (Forall (λ token, free_of delimiters token = true)
              (file_tokens content)) as Hall.
    { unfold file_tokens. apply Forall_concat, Forall_map, Forall_true.
      intros b. apply strtok_all_free. }
    by eapply Forall_forall in Hall.
Qed.

Lemma tokens_are_words_witness :
  "world" ≠ EmptyString ∧ free_of delimiters "world" = true.
Proof.
  apply (tokens_are_words "Hello, world!" "world").
  vm_compute. apply elem_of_cons; right. apply elem_of_cons; left. reflexivity.
Defined.

Lemma strtok_all_step fuel save :
  strtok_all (S fuel) save =
  match strtok delimiters save with
  | None => []
  | Some (token, save') => token :: strtok_all fuel save'
  end.
Proof. done. Qed.

(** The tokens of a line, by its first character. *)
Lemma line_tokens_separator c s :
  char_in c delimiters = true → line_tokens (String c s) = line_tokens s.
Proof.
  intros Hc. unfold line_tokens.
  rewrite (strtok_all_fuel (String.length s) (S (String.length s)) s) by lia.
  change (String.length (String c s)) with (S (String.length s)).
  rewrite !strtok_all_step.
  assert (strtok delimiters (String c s) = strtok delimiters s) as ->; [|done].
  unfold strtok. cbn [skip]. by rewrite Hc.
Qed.

Lemma line_tokens_letter c s :
  char_in c delimiters = false →
  line_tokens (String c s) =
  (scan_token delimiters (String c s)).1
  :: line_tokens (scan_token delimiters (String c s)).2.
Proof.
  intros Hc. unfold line_tokens at 1.
  change (String.length (String c s)) with (S (String.length s)).
  rewrite strtok_all_step.
  assert (strtok delimiters (String c s)
          = Some (scan_token delimiters (String c s))) as Htok.
  { unfold strtok. cbn [skip]. by rewrite Hc. }
  rewrite Htok.
  destruct (scan_token delimiters (String c s)) as [token save'] eqn:Hscan.
  apply strtok_Some in Htok as [_ Hlt]. cbn [String.length] in Hlt.
  cbn [fst snd]. unfold line_tokens.
  f_equal. apply strtok_all_fuel; lia.
Qed.

Lemma scan_token_app delims s x b :
  char_in x delims = true →
  scan_token delims (s +:+ String x b) =
  if free_of delims s then (s, b)
  else ((scan_token delims s).1, (scan_token delims s).2 +:+ String x b).
Proof.
  intros Hx. induction s as [|c s IH]; simpl.
  - by rewrite Hx.
  - destruct (char_in c delims); simpl; [done|].
    rewrite IH. by destruct (free_of delims s).
Qed.

Lemma line_tokens_free s :
  s ≠ EmptyString → free_of delimiters s = true → line_tokens s = [s].
Proof.
  destruct s as [|c s]; [done|]. intros _ Hfree.
  pose proof Hfree as Hfree'. cbn [free_of] in Hfree'.
  apply andb_true_iff in Hfree' as [Hc%negb_true_iff Hs].
  rewrite line_tokens_letter by done.
  assert (scan_token delimiters (String c s) = (String c s, EmptyString)) as ->.
  { clear Hc Hs. induction (String c s) as [|c' s' IH];
      cbn [free_of scan_token] in *; [done|].
    apply andb_true_iff in Hfree as [Hc%negb_true_iff Hs].
    by rewrite Hc, IH. }
  done.
Qed.

Lemma line_tokens_app_fuel n a x b :
  (String.length a ≤ n)%nat → char_in x delimiters = true →
  line_tokens (a +:+ String x b) = line_tokens a ++ line_tokens b.
Proof.
  intros Hlen Hx. revert a Hlen.
  induction n as [|n IH]; intros [|c a] Hlen; cbn [String.length] in Hlen;
    try lia.
  - change (EmptyString +:+ String x b) with (String x b).
    by rewrite line_tokens_separator.
  - change (EmptyString +:+ String x b) with (String x b).
    by rewrite line_tokens_separator.
  - change (String c a +:+ String x b) with (String c (a +:+ String x b)).
    destruct (char_in c delimiters) eqn:Hc.
    + rewrite !line_tokens_separator by done. apply IH. lia.
    + rewrite !line_tokens_letter by done.
      change (String c (a +:+ String x b)) with (String c a +:+ String x b).
      rewrite scan_token_app by done.
      destruct (free_of delimiters (String c a)) eqn:Hfree.
      * assert (scan_token delimiters (String c a) = (String c a, EmptyString))
          as ->.
        { clear -Hfree. induction (String c a) as [|c' s' IH'];
            cbn [free_of scan_token] in *; [done|].
          apply andb_true_iff in Hfree as [Hc%negb_true_iff Hs].
          by rewrite Hc, IH'. }
        done.
      * cbn [fst snd]. rewrite IH; [done|].
        pose proof (scan_token_length delimiters a) as Hl.
        cbn [scan_token]. rewrite Hc. cbn [snd]. lia.
Qed.

(** X15.  A separator between two texts keeps their tokens apart and adds
    none: the tokens of the two texts joined by a separator are the tokens
    of the first followed by the tokens of the second. *)
Theorem line_tokens_app a x b :
  char_in x delimiters = true →
  line_tokens (a +:+ String x b) = line_tokens a ++ line_tokens b.
Proof. intros. by apply (line_tokens_app_fuel (String.length a)). Qed.

Lemma line_tokens_app_witness :
  line_tokens ("the cat" +:+ String "," "sat. On") =
  line_tokens "the cat" ++ line_tokens "sat. On".
Proof. apply (line_tokens_app "the cat" "," "sat. On"). reflexivity. Defined.

(** ** Lines *)

Lemma fgets_read_split room stream :
  (fgets_read room stream).1 +:+ (fgets_read room stream).2 = stream
  ∧ (String.length (fgets_read room stream).1 ≤ room)%nat.
Proof.
  revert stream. induction room as [|room IH]; intros [|c s];
    cbn [fgets_read]; try (split; [done|simpl; lia]).
  destruct (Ascii.eqb c LF); cbn [fst snd]; [split; [done|simpl; lia]|].
  destruct (IH s) as [Heq Hlen]. split; [|simpl; lia].
  change (String c ((fgets_read room s).1 +:+ (fgets_read room s).2) = String c s).
  by rewrite Heq.
Qed.

Lemma fgets_split stream line_buffer stream' :
  fgets MAX_LINE_LEN stream = Some (line_buffer, stream') →
  line_buffer +:+ stream' = stream
  ∧ line_buffer ≠ EmptyString
  ∧ (String.length line_buffer < MAX_LINE_LEN)%nat.
Proof.
  intros Hget. pose proof (fgets_Some _ _ _ Hget) as Hlt. revert Hget.
  unfold fgets. destruct stream as [|c s]; [done|].
  intros Hread. apply (inj Some) in Hread.
  destruct (fgets_read_split (MAX_LINE_LEN - 1) (String c s)) as [Heq Hlen].
  rewrite Hread in Heq, Hlen. cbn [fst snd] in Heq, Hlen.
  split; [done|]. split.
  - intros ->. change (stream' = String c s) in Heq. rewrite Heq in Hlt. lia.
  - unfold MAX_LINE_LEN in *. lia.
Qed.

Lemma fgets_all_buffers fuel stream :
  (String.length stream ≤ fuel)%nat →
  join (fgets_all fuel stream) = stream
  ∧ Forall (λ b, b ≠ EmptyString ∧ (String.length b < MAX_LINE_LEN)%nat)
           (fgets_all fuel stream).
Proof.
  revert stream. induction fuel as [|fuel IH]; intros stream Hlen.
  - destruct stream; [done|simpl in Hlen; lia].
  - cbn [fgets_all].
    destruct (fgets MAX_LINE_LEN stream) as [[line_buffer stream']|] eqn:Hget.
    + pose proof (fgets_Some _ _ _ Hget) as Hlt.
      destruct (fgets_split _ _ _ Hget) as (Heq & Hne & Hshort).
      destruct (IH stream') as [Hjoin Hall]; [lia|].
      split; [|by constructor].
      unfold join in *. cbn [foldr]. by rewrite Hjoin.
    + split; [|done]. by destruct stream.
Qed.

(** X16.  Reading a file with [fgets] loses nothing and invents nothing:
    the successive contents of [line_buffer], one behind the other, are the
    file; and each of them has at least one character and fewer than
    [MAX_LINE_LEN]. *)
Theorem fgets_reads_the_file content :
  join (fgets_all (String.length content) content) = content
  ∧ Forall (λ b, b ≠ EmptyString ∧ (String.length b < MAX_LINE_LEN)%nat)
           (fgets_all (String.length content) content).
Proof. by apply fgets_all_buffers. Qed.

(** ** Files as one text *)

Lemma free_of_app set a b :
  free_of set (a +:+ b) = free_of set a && free_of set b.
Proof.
  induction a as [|c a IH]; simpl; [done|]. by rewrite IH, andb_assoc.
Qed.

Lemma before_free set s : free_of set s = true → before set s = s.
Proof.
  induction s as [|c s IH]; simpl; [done|].
  intros [Hc%negb_true_iff Hs]%andb_true_iff. by rewrite Hc, IH.
Qed.

Lemma before_stop set l x b :
  free_of set l = true → char_in x set = true →
  before set (l +:+ String x b) = l.
Proof.
  intros Hl Hx. induction l as [|c l IH]; simpl in *.
  - by rewrite Hx.
  - apply andb_true_iff in Hl as [Hc%negb_true_iff Hl]. by rewrite Hc, IH.
Qed.

Lemma free_of_before set other s :
  free_of set s = true → free_of set (before other s) = true.
Proof.
  induction s as [|c s IH]; simpl; [done|].
  intros [Hc Hs]%andb_true_iff. destruct (char_in c other); simpl; [done|].
  by rewrite Hc, IH.
Qed.

Lemma before_is_free set s : free_of set (before set s) = true.
Proof.
  induction s as [|c s IH]; simpl; [done|].
  destruct (char_in c set) eqn:Hc; simpl; [done|]. by rewrite Hc.
Qed.

Lemma fgets_read_fit size left room s :
  lines_fit size left s = true → (left < room)%nat →
  ((fgets_read room s).1 = before (String LF EmptyString) s +:+ String LF EmptyString
   ∧ s = before (String LF EmptyString) s +:+ String LF (fgets_read room s).2
   ∧ lines_fit size size (fgets_read room s).2 = true)
  ∨ ((fgets_read room s).1 = s ∧ (fgets_read room s).2 = EmptyString
     ∧ free_of (String LF EmptyString) s = true).
Proof.
  revert left room. induction s as [|c s IH]; intros left [|room] Hfit Hlt;
    try lia.
  - right. done.
  - cbn [fgets_read lines_fit before char_in free_of] in *.
    destruct (Ascii.eqb c LF) eqn:Hc.
    + left. apply Ascii.eqb_eq in Hc as ->. done.
    + destruct left as [|left]; [done|].
      destruct (IH left room Hfit) as [(H1 & H2 & H3)|(H1 & H2 & H3)]; [lia| |].
      * left. cbn [fst snd negb andb String.append]. rewrite H1.
        split; [done|]. split; [|done]. rewrite H2 at 1. reflexivity.
      * right. cbn [fst snd negb andb]. by rewrite H1, H2, H3.
Qed.

Lemma file_tokens_fuel fuel s :
  (String.length s ≤ fuel)%nat →
  lines_fit (MAX_LINE_LEN - 2) (MAX_LINE_LEN - 2) s = true →
  free_of (String NUL EmptyString) s = true →
  concat (map (λ b, line_tokens (cut_line b)) (fgets_all fuel s)) = line_tokens s.
Proof.
  revert s. induction fuel as [|fuel IH]; intros s Hlen Hfit Hnul.
  - destruct s; [done|simpl in Hlen; lia].
  - cbn [fgets_all].
    destruct (fgets MAX_LINE_LEN s) as [[line_buffer stream']|] eqn:Hget;
      [|by destruct s].
    pose proof (fgets_Some _ _ _ Hget) as Hshorter.
    unfold fgets in Hget. destruct s as [|c s]; [done|].
    apply (inj Some) in Hget.
    destruct (fgets_read_fit _ _ (MAX_LINE_LEN - 1) _ Hfit)
      as [(H1 & H2 & H3)|(H1 & H2 & H3)]; [unfold MAX_LINE_LEN; lia| |];
      rewrite Hget in *; cbn [fst snd] in *; cbn [map concat].
    + set (l := before (String LF EmptyString) (String c s)) in *.
      assert (free_of (String NUL EmptyString) l = true) as Hl
        by (by apply free_of_before).
      assert (free_of (String NUL EmptyString) stream' = true) as Hrest.
      { rewrite H2, free_of_app in Hnul.
        apply andb_true_iff in Hnul as [_ Hnul]. exact Hnul. }
      assert (cut_line line_buffer = l) as ->.
      { unfold cut_line. rewrite H1.
        rewrite (before_free (String NUL EmptyString)
                   (l +:+ String LF EmptyString))
          by (by rewrite free_of_app, Hl).
        apply before_stop; [apply before_is_free|done]. }
      rewrite IH by (done || lia).
      rewrite H2. by rewrite (line_tokens_app_fuel (String.length l)).
    + subst. assert (cut_line (String c s) = String c s) as ->.
      { unfold cut_line.
        rewrite (before_free (String NUL EmptyString)) by done.
        by rewrite before_free. }
      assert (fgets_all fuel EmptyString = []) as -> by (by destruct fuel).
      simpl. by rewrite app_nil_r.
Qed.

(** X17.  Line ends are separators like any other: for a file without NUL
    bytes whose lines have fewer than 1023 characters each, reading line by
    line gives the same tokens, in the same order, as cutting the whole
    content into tokens at once. *)
Theorem file_tokens_whole content :
  lines_fit (MAX_LINE_LEN - 2) (MAX_LINE_LEN - 2) content = true →
  free_of (String NUL EmptyString) content = true →
  file_tokens content = line_tokens content.
Proof. intros. by apply file_tokens_fuel. Qed.

Lemma file_tokens_whole_witness :
  file_tokens ("the cat" +:+ String LF ("sat on" +:+ String LF "the mat"))
  = line_tokens ("the cat" +:+ String LF ("sat on" +:+ String LF "the mat")).
Proof.
  apply (file_tokens_whole
           ("the cat" +:+ String LF ("sat on" +:+ String LF "the mat")));
    vm_compute; reflexivity.
Defined.

(** ** Lines longer than the buffer *)

Lemma append_length a b :
  String.length (a +:+ b) = (String.length a + String.length b)%nat.
Proof.
  induction a as [|c a IH]; [done|].
  change (String c a +:+ b) with (String c (a +:+ b)). simpl. by rewrite IH.
Qed.

Lemma fgets_read_full room a b :
  String.length a = room → free_of (String LF EmptyString) a = true →
  fgets_read room (a +:+ b) = (a, b).
Proof.
  revert room. induction a as [|c a IH]; intros room <- Hfree.
  - by destruct b.
  - change (String c a +:+ b) with (String c (a +:+ b)).
    cbn [String.length fgets_read free_of char_in] in *.
    destruct (Ascii.eqb c LF); [done|]. by rewrite IH.
Qed.

(** X18.  A line is cut after 1023 characters: when a file starts with 1023
    characters without a line feed, these are tokenized on their own and
    the rest of the file after them, so that a word lying across the cut is
    indexed as two tokens. *)
Theorem long_line_is_cut a b :
  String.length a = (MAX_LINE_LEN - 1)%nat →
  free_of (String LF EmptyString) a = true →
  file_tokens (a +:+ b) = line_tokens (cut_line a) ++ file_tokens b.
Proof.
  intros Hlen Hfree. unfold file_tokens.
  destruct a as [|c a]; [done|].
  change (String.length (String c a +:+ b))
    with (S (String.length (a +:+ b))).
  cbn [fgets_all]. unfold fgets at 1.
  change (String c a +:+ b) with (String c (a +:+ b)) at 1.
  cbn iota. change (String c (a +:+ b)) with (String c a +:+ b).
  rewrite fgets_read_full by done. cbn [map concat]. do 3 f_equal.
  apply fgets_all_fuel; [|done]. rewrite append_length. lia.
Qed.

Lemma long_line_is_cut_witness :
  file_tokens
    ((replicate_char 1000 " " +:+ "abcdefghijklmnopqrstuvw") +:+ "xyz end")
  = ["abcdefghijklmnopqrstuvw"; "xyz"; "end"].
Proof.
  etransitivity.
  - apply (long_line_is_cut
             (replicate_char 1000 " " +:+ "abcdefghijklmnopqrstuvw") "xyz end");
      vm_compute; reflexivity.
  - vm_compute. reflexivity.
Defined.

(** ** Queries longer than the buffer *)

Lemma Search_fits table query :
  (String.length query < MAX_WORD_LEN)%nat →
  is_done (Search table query) = true.
Proof.
  intros Hlt. unfold Search. rewrite ToLowerCase_fits by done. simpl.
  by destruct (find_word _ _) as [[[??]?]|].
Qed.


(** ** The query loop of [main] *)

Lemma scan_word_stop w x s :
  free_of whitespace w = true → char_in x whitespace = true →
  scan_word (w +:+ String x s) = (w, String x s).
Proof.
  intros Hw Hx. induction w as [|c w IH].
  - change (EmptyString +:+ String x s) with (String x s).
    cbn [scan_word]. by rewrite Hx.
  - change (String c w +:+ String x s) with (String c (w +:+ String x s)).
    cbn [scan_word free_of] in *.
    apply andb_true_iff in Hw as [Hc%negb_true_iff Hw].
    by rewrite Hc, IH.
Qed.

Lemma scanf_s_word w s :
  w ≠ EmptyString → free_of whitespace w = true →
  scanf_s (w +:+ String LF s) = Some (w, String LF s).
Proof.
  intros Hne Hw. unfold scanf_s. destruct w as [|c w]; [done|].
  change (String c w +:+ String LF s) with (String c (w +:+ String LF s)).
  pose proof Hw as Hw'. cbn [free_of] in Hw'.
  apply andb_true_iff in Hw' as [Hc%negb_true_iff _].
  cbn [skip]. rewrite Hc.
  change (String c (w +:+ String LF s)) with (String c w +:+ String LF s).
  by rewrite scan_word_stop.
Qed.

Lemma scanf_s_skip s : scanf_s (String LF s) = scanf_s s.
Proof. done. Qed.

Lemma query_loop_skip fuel table query s :
  query_loop fuel table query (String LF s) = query_loop fuel table query s.
Proof.
  revert query. induction fuel as [|fuel IH]; intros query; [done|].
  cbn [query_loop]. rewrite scanf_s_skip.
  destruct (scanf_s s) as [[w stdin']|]; [done|].
  destruct query as [q|]; [|done].
  destruct (String.eqb q "quit"); [done|].
  destruct (Search table q); [|done]. by rewrite IH.
Qed.

Lemma query_word_round fuel table query w s :
  query_word w →
  query_loop (S fuel) table query (w +:+ String LF s) =
  (Prompt :: answer table w ++ (query_loop fuel table (Some w) s).1,
   (query_loop fuel table (Some w) s).2).
Proof.
  intros (Hne & Hlen & Hws & Hnul & Hquit). cbn [query_loop].
  rewrite scanf_s_word by done.
  destruct (Nat.ltb_spec (String.length w) MAX_WORD_LEN); [|lia].
  rewrite before_free by done.
  destruct (String.eqb_spec w "quit"); [done|].
  unfold answer.
  pose proof (Search_fits table w Hlen) as Hdone.
  destruct (Search table w) as [out|]; [|done].
  by rewrite query_loop_skip.
Qed.

Lemma typed_cons w words : typed (w :: words) = w +:+ String LF (typed words).
Proof.
  unfold typed, join. cbn [map foldr]. generalize (foldr String.append EmptyString
    (map (λ w0, w0 +:+ String LF EmptyString) words)). intros rest.
  induction w as [|c w IH]; [done|].
  change (String c w +:+ String LF EmptyString) with (String c (w +:+ String LF EmptyString)).
  change (String c (w +:+ String LF EmptyString) +:+ rest)
    with (String c ((w +:+ String LF EmptyString) +:+ rest)).
  change (String c w +:+ String LF rest) with (String c (w +:+ String LF rest)).
  by rewrite IH.
Qed.

Lemma append_assoc a b c : (a +:+ b) +:+ c = a +:+ (b +:+ c).
Proof.
  induction a as [|x a IH]; [done|].
  change (String x a +:+ b) with (String x (a +:+ b)).
  change (String x (a +:+ b) +:+ c) with (String x ((a +:+ b) +:+ c)).
  change (String x a +:+ (b +:+ c)) with (String x (a +:+ (b +:+ c))).
  by rewrite IH.
Qed.

Lemma query_loop_quit fuel table query words rest :
  Forall query_word words → (length words < fuel)%nat →
  query_loop fuel table query (typed (words ++ ["quit"]) +:+ rest) =
  (rounds table words ++ [Prompt], Exit).
Proof.
  intros Hwords. revert fuel query.
  induction Hwords as [|w words Hw _ IH]; intros [|fuel] query Hfuel;
    simpl in Hfuel; try lia.
  - done.
  - cbn [app]. rewrite typed_cons.
    change (String LF (typed (words ++ ["quit"])))
      with (String LF EmptyString +:+ typed (words ++ ["quit"])).
    rewrite !append_assoc.
    change (String LF EmptyString +:+ (typed (words ++ ["quit"]) +:+ rest))
      with (String LF (typed (words ++ ["quit"]) +:+ rest)).
    rewrite query_word_round by done.
    rewrite IH by lia. unfold rounds. cbn [map concat].
    by rewrite <- app_assoc.
Qed.

(** Proves [query_word w] for a word given in full. *)
Ltac query_word_given :=
  split; [discriminate|];
  split; [vm_compute; lia|];
  split; [reflexivity|];
  split; [reflexivity|discriminate].

(** X20.  A session that ends with quit: when the index is built and the
    user types some queries and then the word quit, [main] prints its
    banner, what the loading printed, and for each query in turn the prompt
    and the output of [Search] for it; it returns at quit, and whatever
    follows on the standard input is not read. *)
Theorem main_answers_until_quit fs h out st words rest fuel :
  build_loop fs 0 files (init h) = Done (out, st) →
  Forall query_word words → (length words < fuel)%nat →
  main fs h (typed (words ++ ["quit"]) +:+ rest) fuel =
  ([Banner; Building] ++ map Printed out ++ [Built]
   ++ rounds (HashTable st) words ++ [Prompt], Exit).
Proof.
  intros Hbuild Hwords Hfuel. unfold main. rewrite Hbuild.
  by rewrite query_loop_quit.
Qed.

Lemma main_answers_until_quit_witness :
  main (fs_of [("test.txt", "the cat sat on the mat")]) []
    (typed (["The"; "QUIT"] ++ ["quit"]) +:+ "cat") 5 =
  ([Banner; Building;
    Printed (WarnCannotOpen "source_1.txt");
    Printed (WarnCannotOpen "source_2.txt");
    Printed (WarnCannotOpen "requirements.txt");
    Printed (Indexing "test.txt");
    Built;
    Prompt; Printed (ResultHeader "The"); Printed (ResultRow "test.txt" 2);
    Prompt; Printed (NoDocument "QUIT");
    Prompt], Exit).
Proof.
  etransitivity.
  - apply (main_answers_until_quit
             (fs_of [("test.txt", "the cat sat on the mat")]) []
             [WarnCannotOpen "source_1.txt"; WarnCannotOpen "source_2.txt";
              WarnCannotOpen "requirements.txt"; Indexing "test.txt"]
             (state_of (insert_tokens ["the"; "cat"; "sat"; "on"; "the"; "mat"]
                          4 "test.txt" (init [])))
             ["The"; "QUIT"] "cat" 5).
    + vm_compute. reflexivity.
    + constructor; [query_word_given|].
      constructor; [query_word_given|constructor].
    + vm_compute. lia.
  - vm_compute. reflexivity.
Defined.

Lemma query_loop_eof fuel table q s :
  scanf_s s = None → q ≠ "quit" → (String.length q < MAX_WORD_LEN)%nat →
  query_loop fuel table (Some q) s =
  (concat (replicate fuel (Prompt :: answer table q)), Running).
Proof.
  intros Heof Hquit Hlen. induction fuel as [|fuel IH]; [done|].
  cbn [query_loop replicate concat]. rewrite Heof.
  destruct (String.eqb_spec q "quit"); [done|].
  unfold answer in *.
  pose proof (Search_fits table q Hlen) as Hdone.
  destruct (Search table q) as [out|]; [|done].
  by rewrite IH.
Qed.

Lemma query_loop_words table words w query k :
  Forall query_word words → query_word w →
  query_loop (length (words ++ [w]) + k) table query (typed (words ++ [w])) =
  (rounds table (words ++ [w])
   ++ concat (replicate k (Prompt :: answer table w)), Running).
Proof.
  intros Hwords Hw. revert query.
  induction Hwords as [|w0 words Hw0 _ IH]; intros query.
  - cbn [app length Nat.add]. rewrite typed_cons.
    rewrite query_word_round by done.
    destruct Hw as (_ & Hlen & _ & _ & Hquit).
    rewrite query_loop_eof by done.
    unfold rounds. cbn [map concat fst snd]. by rewrite app_nil_r.
  - cbn [app length Nat.add]. rewrite typed_cons.
    rewrite query_word_round by done. rewrite IH.
    unfold rounds. cbn [map concat fst snd]. by rewrite <- app_assoc.
Qed.

(** X21.  A session without quit never ends: when the standard input runs
    out after the last query, [scanf] leaves [query] as it is, and [main]
    goes on printing the prompt and the answer to the last query, round
    after round. *)
Theorem main_repeats_last_query fs h out st words w k :
  build_loop fs 0 files (init h) = Done (out, st) →
  Forall query_word words → query_word w →
  main fs h (typed (words ++ [w])) (length (words ++ [w]) + k) =
  ([Banner; Building] ++ map Printed out ++ [Built]
   ++ rounds (HashTable st) (words ++ [w])
   ++ concat (replicate k (Prompt :: answer (HashTable st) w)), Running).
Proof.
  intros Hbuild Hwords Hw. unfold main. rewrite Hbuild.
  by rewrite query_loop_words.
Qed.

Lemma main_repeats_last_query_witness :
  main (fs_of []) [] (typed ([] ++ ["cat"])) (length ([] ++ ["cat"]) + 2) =
  ([Banner; Building;
    Printed (WarnCannotOpen "source_1.txt");
    Printed (WarnCannotOpen "source_2.txt");
    Printed (WarnCannotOpen "requirements.txt");
    Printed (WarnCannotOpen "test.txt");
    Built;
    Prompt; Printed (NoDocument "cat");
    Prompt; Printed (NoDocument "cat");
    Prompt; Printed (NoDocument "cat")], Running).
Proof.
  apply (main_repeats_last_query (fs_of []) []
           [WarnCannotOpen "source_1.txt"; WarnCannotOpen "source_2.txt";
            WarnCannotOpen "requirements.txt"; WarnCannotOpen "test.txt"]
           (init []) [] "cat" 2).
  - reflexivity.
  - constructor.
  - query_word_given.
Defined.

Lemma query_loop_long fuel table query words long rest :
  Forall query_word words → (length words < fuel)%nat →
  free_of whitespace long = true →
  (MAX_WORD_LEN ≤ String.length long)%nat →
  query_loop fuel table query (typed (words ++ [long]) +:+ rest) =
  (rounds table words ++ [Prompt], Wrong BufferOverflow).
Proof.
  intros Hwords. revert fuel query.
  induction Hwords as [|w words Hw _ IH]; intros [|fuel] query Hfuel Hfree Hlong;
    simpl in Hfuel; try lia.
  - cbn [app]. rewrite typed_cons.
    change (typed []) with EmptyString.
    rewrite append_assoc.
    change (String LF EmptyString +:+ rest) with (String LF rest).
    assert (long ≠ EmptyString) as Hne
      by (intros ->; unfold MAX_WORD_LEN in Hlong; simpl in Hlong; lia).
    cbn [query_loop]. rewrite scanf_s_word by done.
    by destruct (Nat.ltb_spec (String.length long) MAX_WORD_LEN); [lia|].
  - cbn [app]. rewrite typed_cons.
    change (String LF (typed (words ++ [long])))
      with (String LF EmptyString +:+ typed (words ++ [long])).
    rewrite !append_assoc.
    change (String LF EmptyString +:+ (typed (words ++ [long]) +:+ rest))
      with (String LF (typed (words ++ [long]) +:+ rest)).
    rewrite query_word_round by done.
    rewrite IH by (done || lia). unfold rounds. cbn [map concat].
    by rewrite <- app_assoc.
Qed.

(** X22.  A query of 50 characters or more overruns the buffer [query] of
    [main]: the queries typed before it are answered, and with the long one
    [scanf] writes past the end of the array. *)
Theorem main_long_query fs h out st words long rest fuel :
  build_loop fs 0 files (init h) = Done (out, st) →
  Forall query_word words → (length words < fuel)%nat →
  free_of whitespace long = true →
  (MAX_WORD_LEN ≤ String.length long)%nat →
  main fs h (typed (words ++ [long]) +:+ rest) fuel =
  ([Banner; Building] ++ map Printed out ++ [Built]
   ++ rounds (HashTable st) words ++ [Prompt], Wrong BufferOverflow).
Proof.
  intros Hbuild Hwords Hfuel Hfree Hlong. unfold main. rewrite Hbuild.
  by rewrite query_loop_long.
Qed.

Lemma main_long_query_witness :
  (main (fs_of []) [] (typed (["cat"] ++ [long_token]) +:+ "quit") 3).2
  = Wrong BufferOverflow.
Proof.
  rewrite (main_long_query (fs_of []) []
             [WarnCannotOpen "source_1.txt"; WarnCannotOpen "source_2.txt";
              WarnCannotOpen "requirements.txt"; WarnCannotOpen "test.txt"]
             (init []) ["cat"] long_token "quit" 3).
  - reflexivity.
  - reflexivity.
  - constructor; [query_word_given|constructor].
  - vm_compute. lia.
  - reflexivity.
  - vm_compute. lia.
Defined.

(** ** Documents do not touch each other *)

Lemma docs_step_other id name docs h docs' h' id' :
  docs_step id name docs h docs' h' → id' ≠ id →
  count_in docs' id' = count_in docs id'.
Proof.
  intros Hstep Hne. rewrite !count_in_fmap. unfold find_doc.
  destruct Hstep as [before d behind h Hb Hd Hf | docs h Hall
                    | docs h h' Hall Hm Hn]; [| done |].
  - rewrite (find_first_replace _ frequency before d
               {| doc_id := doc_id d; doc_name := doc_name d;
                  frequency := frequency d + 1 |} behind); [done| |];
      simpl; apply Z.eqb_neq; congruence.
  - rewrite find_first_cons; [done|]. simpl. apply Z.eqb_neq. congruence.
Qed.

Lemma chain_step_other_doc w id name chain h chain' h' id' :
  chain_step w id name chain h chain' h' → id' ≠ id →
  count_in (default [] (chain_docs w chain')) id'
  = count_in (default [] (chain_docs w chain)) id'.
Proof.
  intros Hstep Hne.
  destruct Hstep as [before p behind h docs' h' Hb Hp Hd | chain h Hall
                    | chain h h1 docs' h' Hall Hm Hd]; [| done |].
  - unfold chain_docs.
    rewrite !(find_word_at w before _ behind _ eq_refl) by done. simpl.
    by eapply docs_step_other.
  - unfold chain_docs. rewrite find_word_head by done.
    apply find_word_None in Hall as ->. simpl.
    by apply (docs_step_other _ _ _ _ _ _ _ Hd).
Qed.

Lemma InsertIndex_other_doc raw id name st st' t id' :
  InsertIndex raw id name st = Done st' → id' ≠ id →
  posting_count (HashTable st') t id' = posting_count (HashTable st) t id'.
Proof.
  intros [_ [[_ ->]|(_ & chain' & Hstep & ->)]]%InsertIndex_Done Hne; [done|].
  unfold posting_count, postings. rewrite bucket_insert.
  destruct (decide _) as [[Hidx _]|_]; [|done].
  destruct (decide (t = lower raw)) as [->|Ht].
  - by eapply chain_step_other_doc.
  - by rewrite Hidx, (chain_step_other _ _ _ _ _ _ _ t Hstep).
Qed.

Lemma insert_tokens_other_doc tokens id name st st' t id' :
  insert_tokens tokens id name st = Done st' → id' ≠ id →
  posting_count (HashTable st') t id' = posting_count (HashTable st) t id'.
Proof.
  intros Hrun Hne. revert st Hrun.
  induction tokens as [|token tokens IH]; intros st; simpl.
  - by intros [= <-].
  - destruct (InsertIndex token id name st) as [st1|] eqn:H1; simpl; [|done].
    intros Hrun. rewrite (IH _ Hrun). by eapply InsertIndex_other_doc.
Qed.

(** X23.  Loading a file changes nothing of what the table holds for other
    documents: every count under a document number other than the one of
    the file is what it was, also when allocations fail on the way. *)
Theorem LoadFileAndIndex_other_documents fs id filename st out st' t id' :
  LoadFileAndIndex fs id filename st = Done (out, st') → id' ≠ id →
  posting_count (HashTable st') t id' = posting_count (HashTable st) t id'.
Proof.
  intros Hrun Hne. destruct (fs filename) as [content|] eqn:Hfs.
  - rewrite (LoadFileAndIndex_tokens _ _ _ content) in Hrun by done.
    destruct (insert_tokens _ _ _ st) as [st1|] eqn:Hins; [|done].
    injection Hrun as _ <-. by eapply insert_tokens_other_doc.
  - rewrite LoadFileAndIndex_missing in Hrun by done.
    by injection Hrun as _ <-.
Qed.

Lemma LoadFileAndIndex_other_documents_witness :
  posting_count
    (HashTable (state_of (insert_tokens ["the"; "hound"] 2 "b.txt"
                  (state_of (insert_tokens ["the"; "fox"] 1 "a.txt" (init []))))))
    "the" 1
  = posting_count
      (HashTable (state_of (insert_tokens ["the"; "fox"] 1 "a.txt" (init []))))
      "the" 1.
Proof.
  apply (LoadFileAndIndex_other_documents
           (fs_of [("b.txt", "the hound")]) 2 "b.txt"
           (state_of (insert_tokens ["the"; "fox"] 1 "a.txt" (init [])))
           [Indexing "b.txt"]).
  - vm_compute. reflexivity.
  - discriminate.
Defined.

(** ** The hash of a text in two parts *)

(** X24.  The hash is a rolling hash: the loop over a text in two parts is
    the loop over the second part started from what the loop over the first
    part left in [hash]. *)
Theorem hash_loop_app hash a b :
  hash_loop hash (a +:+ b) = hash_loop (hash_loop hash a) b.
Proof.
  revert hash. induction a as [|c a IH]; intros hash; [done|].
  change (String c a +:+ b) with (String c (a +:+ b)). cbn [hash_loop].
  apply IH.
Qed.

(** ** What was inserted is found *)



(** ** Files without words *)

Lemma line_tokens_only s : only_of delimiters s = true → line_tokens s = [].
Proof.
  induction s as [|c s IH]; [done|]. cbn [only_of].
  intros [Hc Hs]%andb_true_iff. rewrite line_tokens_separator by done.
  by apply IH.
Qed.

Lemma only_of_app set a b :
  only_of set (a +:+ b) = only_of set a && only_of set b.
Proof.
  induction a as [|c a IH]; [done|].
  change (String c a +:+ b) with (String c (a +:+ b)). cbn [only_of].
  by rewrite IH, andb_assoc.
Qed.

Lemma only_of_before set other s :
  only_of set s = true → only_of set (before other s) = true.
Proof.
  induction s as [|c s IH]; [done|]. cbn [only_of before].
  intros [Hc Hs]%andb_true_iff. destruct (char_in c other); [done|].
  cbn [only_of]. by rewrite Hc, IH.
Qed.

Lemma only_of_buffers set buffers :
  only_of set (join buffers) = true → Forall (λ b, only_of set b = true) buffers.
Proof.
  induction buffers as [|b buffers IH]; [done|].
  unfold join. cbn [foldr]. rewrite only_of_app.
  intros [Hb Hrest]%andb_true_iff. constructor; [done|]. by apply IH.
Qed.

(** X26.  A file that holds nothing but separator characters, or nothing at
    all, is loaded without a call of [InsertIndex]: [LoadFileAndIndex]
    prints that it indexes the file and returns the state as it was. *)
Theorem file_without_words fs id filename content st :
  fs filename = Some content →
  only_of delimiters content = true →
  LoadFileAndIndex fs id filename st = Done ([Indexing filename], st).
Proof.
  intros Hfs Honly. rewrite (LoadFileAndIndex_tokens _ _ _ content) by done.
  assert (file_tokens content = []) as ->; [|done].
  unfold file_tokens.
  pose proof (proj1 (fgets_all_buffers (String.length content) content
                       (Nat.le_refl _))) as Hjoin.
  rewrite <- Hjoin in Honly. apply only_of_buffers in Honly.
  clear Hjoin. set (buffers := fgets_all _ _) in *. clearbody buffers.
  induction Honly as [|b buffers Hb _ IH]; [done|].
  cbn [map concat]. rewrite IH, app_nil_r.
  apply line_tokens_only. unfold cut_line. by do 2 apply only_of_before.
Qed.

Lemma file_without_words_witness :
  LoadFileAndIndex (fs_of [("dots.txt", "... , (!) ")]) 1 "dots.txt" (init [])
  = Done ([Indexing "dots.txt"], init []).
Proof.
  apply (file_without_words (fs_of [("dots.txt", "... , (!) ")]) 1 "dots.txt"
           "... , (!) " (init [])); reflexivity.
Defined.
